(** * IgGM protein utilities: masked-language-model masks and QTA initialisation

    A shallow embedding of [IgGM/protein/utils.py]:
    - [get_mlm_masks]   random masks, one per distinct amino-acid sequence;
    - [apply_mlm_masks] the 80/10/10 token corruption;
    - [init_qta_params] quaternion / translation / angle initialisation.

    Python exceptions are values of [error]; a call that raises returns
    [Err e] and nothing else.  The two random generators the code reads
    (Python's [random] module and torch's default generator) are explicit
    states threaded through the calls.  Amino-acid sequences are strings,
    the mask dictionary is a finite map over them, integer tensors hold
    [Z], and the floating-point entries of the QTA tensors are kept
    abstract behind the class [Scalar]. *)

From stdpp Require Import gmap strings list fin_maps.
From Stdlib Require Import QArith Qround.
From Stdlib Require PrimFloat.

Local Open Scope nat_scope.

(** ** Exceptions and fallible results *)

Inductive error : Set :=
| ValueError | IndexError | KeyError | AttributeError | AssertionError | RuntimeError.

Inductive result (A : Type) : Type :=
| Ok (a : A)
| Err (e : error).
Arguments Ok {A} a.
Arguments Err {A} e.

#[export] Instance result_ret : MRet result := λ A a, Ok a.
#[export] Instance result_bind : MBind result :=
  λ A B f m, match m with Ok a => f a | Err e => Err e end.

(** ** Random generators

    A generator is a stream of raw draws and the position reached in it;
    drawing returns the value at the cursor and moves the cursor on. *)

Record generator (A : Type) : Type := Generator { entropy : nat → A; cursor : nat }.
Arguments Generator {A} entropy cursor.
Arguments entropy {A} g n.
Arguments cursor {A} g.

Definition draw {A} (g : generator A) : A * generator A :=
  (entropy g (cursor g), Generator (entropy g) (S (cursor g))).

Fixpoint draws {A} (n : nat) (g : generator A) : list A * generator A :=
  match n with
  | 0 => ([], g)
  | S n' =>
      let '(x, g1) := draw g in
      let '(xs, g2) := draws n' g1 in
      (x :: xs, g2)
  end.

(** ** Python's [random] module *)

Module PyRandom.

(** The module's hidden generator, delivering raw natural numbers. *)
Definition rng : Type := generator nat.

(** [_randbelow(n)]: an index below [n] (for [n > 0]). *)
Definition randbelow (n : nat) (g : rng) : nat * rng :=
  let '(x, g') := draw g in (x mod n, g').

(** The selection loop of [random.sample]: [pool] holds the items not yet
    selected; the drawn item is taken out and the last item of the pool is
    moved into the vacancy.  (For large populations CPython tracks the
    selected positions in a set instead of copying the pool; either way the
    result holds the items of [k] different positions.) *)
Fixpoint sample_pool {A} (pool : list A) (k : nat) (g : rng) : list A * rng :=
  match k with
  | 0 => ([], g)
  | S k' =>
      let '(j, g1) := randbelow (length pool) g in
      match pool !! j, last pool with
      | Some x, Some y =>
          let pool' := take (length pool - 1) (<[j := y]> pool) in
          let '(res, g2) := sample_pool pool' k' g1 in
          (x :: res, g2)
      | _, _ => ([], g1)
      end
  end.

(** [random.sample(population, k)]: [ValueError] unless [0 <= k <= n]. *)
Definition sample {A} (population : list A) (k : Z) (g : rng)
  : result (list A * rng) :=
  if decide (0 ≤ k ≤ Z.of_nat (length population))%Z
  then Ok (sample_pool population (Z.to_nat k) g)
  else Err ValueError.

(** [random.choices(population, k=k)]: [k] independent draws with
    replacement; an empty population cannot be indexed. *)
Fixpoint choices {A} (population : list A) (k : nat) (g : rng)
  : result (list A * rng) :=
  match k with
  | 0 => Ok ([], g)
  | S k' =>
      let '(j, g1) := randbelow (length population) g in
      match population !! j with
      | Some x => '(rest, g2) ← choices population k' g1; Ok (x :: rest, g2)
      | None => Err IndexError
      end
  end.

End PyRandom.

(** ** Tensors with a shape

    A tensor handed in by the caller: its [shape] and its entries in
    row-major order. *)

Record tensor (A : Type) : Type := Tensor { shape : list nat; data : list A }.
Arguments Tensor {A} shape data.
Arguments shape {A} t.
Arguments data {A} t.

Definition numel (s : list nat) : nat := foldr Nat.mul 1 s.

(** A tensor as torch builds them: as many entries as its shape says. *)
Definition well_formed {A} (t : tensor A) : Prop := length (data t) = numel (shape t).

(** The strict order of [Q], as a test. *)
Definition Qltb (x y : Q) : bool :=
  (Qnum x * Zpos (Qden y) <? Qnum y * Zpos (Qden x))%Z.

(** ** The torch operations the code calls *)

Module Torch.

(** *** One-dimensional integer tensors, as lists *)

(** [torch.zeros(n, dtype=torch.int8)] *)
Definition zeros (n : nat) : list Z := replicate n 0%Z.

(** [torch.nonzero(v)[:, 0].tolist()]: the positions of the non-zero
    entries, in increasing order. *)
Fixpoint nonzero_from (i : nat) (v : list Z) : list nat :=
  match v with
  | [] => []
  | x :: v' =>
      if decide (x = 0%Z) then nonzero_from (S i) v'
      else i :: nonzero_from (S i) v'
  end.
Definition nonzero (v : list Z) : list nat := nonzero_from 0 v.

(** [t[idxs] = x] with a list of non-negative indices: an index past the
    end raises [IndexError]. *)
Fixpoint index_put (t : list Z) (idxs : list nat) (x : Z) : result (list Z) :=
  match idxs with
  | [] => Ok t
  | i :: rest =>
      if decide (i < length t) then index_put (<[i := x]> t) rest x
      else Err IndexError
  end.

(** [torch.cat(ts, dim=0)] of one-dimensional tensors; an empty list of
    tensors is rejected. *)
Definition cat (ts : list (list Z)) : result (list Z) :=
  match ts with
  | [] => Err RuntimeError
  | _ => Ok (concat ts)
  end.

(** *** Tensors with a shape *)

(** A pointwise operation on one tensor. *)
Definition map {A B} (f : A → B) (t : tensor A) : tensor B :=
  Tensor (shape t) (f <$> data t).

(** A pointwise operation on two tensors of the same shape (shapes that
    differ are rejected: broadcasting is not part of this model). *)
Definition map2 {A B C} (f : A → B → C) (a : tensor A) (b : tensor B)
  : result (tensor C) :=
  if decide (shape a = shape b)
  then Ok (Tensor (shape a) (zip_with f (data a) (data b)))
  else Err RuntimeError.

(** [torch.rand(shape)]: one uniform draw per entry, in row-major order. *)
Definition rand (s : list nat) (g : generator Q) : tensor Q * generator Q :=
  let '(xs, g') := draws (numel s) g in (Tensor s xs, g').

(** [torch.lt(t, c)] and [torch.gt(t, c)] *)
Definition lt (t : tensor Q) (c : Q) : tensor bool := map (λ x, Qltb x c) t.
Definition gt (t : tensor Q) (c : Q) : tensor bool := map (λ x, Qltb c x) t.

(** [m * b] for an integer tensor [m] and a boolean tensor [b] *)
Definition mul_bool (m : tensor Z) (b : tensor bool) : result (tensor Z) :=
  map2 (λ x (c : bool), (x * (if c then 1 else 0))%Z) m b.

(** [t.to(torch.bool)] *)
Definition to_bool (t : tensor Z) : tensor bool :=
  map (λ x, bool_decide (x ≠ 0%Z)) t.

(** [c * torch.ones_like(t)] *)
Definition scaled_ones_like (c : Z) (t : tensor Z) : tensor Z :=
  map (λ _, (c * 1)%Z) t.

(** [torch.tensor(xs).view(s)] *)
Definition of_list_view {A} (xs : list A) (s : list nat) : result (tensor A) :=
  if decide (length xs = numel s) then Ok (Tensor s xs) else Err RuntimeError.

(** [torch.where(c, a, b)] *)
Definition where_ {A} (c : tensor bool) (a b : tensor A) : result (tensor A) :=
  ab ← map2 pair a b;
  map2 (λ (m : bool) '(x, y), if m then x else y) c ab.

End Torch.

(** ** [get_mlm_masks] *)

(** Python's [int] on a non-integral number: truncation towards zero. *)
Definition py_int (q : Q) : Z := Z.quot (Qnum q) (Zpos (Qden q)).

(** [int(n_resds_cand * mask_prob + 0.5)], with the mask probability a
    rational number and the product and the sum exact. *)
Definition n_resds_mask_of (n_resds_cand : nat) (mask_prob : Q) : Z :=
  py_int (inject_Z (Z.of_nat n_resds_cand) * mask_prob + (1 # 2)).

(** The candidate residues of the sequence at [seq_idx]. *)
Definition idxs_resd_cand_of (aa_seq : string) (seq_idx : nat)
    (mask_vecs : option (list (list Z))) : result (list nat) :=
  match mask_vecs with
  | None => Ok (seq 0 (String.length aa_seq))
  | Some mvs =>
      match mvs !! seq_idx with
      | Some v => Ok (Torch.nonzero v)
      | None => Err IndexError
      end
  end.

(** The body of the loop for a sequence not yet in the dictionary. *)
Definition gen_mask (aa_seq : string) (seq_idx : nat) (mask_prob : Q)
    (mask_vecs : option (list (list Z))) (g : PyRandom.rng)
  : result (list Z * PyRandom.rng) :=
  idxs_resd_cand ← idxs_resd_cand_of aa_seq seq_idx mask_vecs;
  let n_resds_cand := length idxs_resd_cand in
  let n_resds_mask := n_resds_mask_of n_resds_cand mask_prob in
  '(idxs_resd, g') ← PyRandom.sample idxs_resd_cand n_resds_mask g;
  mask_vec ← Torch.index_put (Torch.zeros (String.length aa_seq)) idxs_resd 1%Z;
  Ok (mask_vec, g').

(** [for seq_idx, aa_seq in enumerate(aa_seqs)], started at [seq_idx]. *)
Fixpoint mlm_loop (aa_seqs : list string) (seq_idx : nat) (mask_prob : Q)
    (mask_vecs : option (list (list Z)))
    (mask_vec_dict : gmap string (list Z)) (g : PyRandom.rng)
  : result (gmap string (list Z) * PyRandom.rng) :=
  match aa_seqs with
  | [] => Ok (mask_vec_dict, g)
  | aa_seq :: rest =>
      match mask_vec_dict !! aa_seq with
      | Some _ => mlm_loop rest (S seq_idx) mask_prob mask_vecs mask_vec_dict g
      | None =>
          '(mask_vec, g') ← gen_mask aa_seq seq_idx mask_prob mask_vecs g;
          mlm_loop rest (S seq_idx) mask_prob mask_vecs
                   (<[aa_seq := mask_vec]> mask_vec_dict) g'
      end
  end.

(** [[mask_vec_dict[x] for x in aa_seqs]] *)
Fixpoint lookup_all (mask_vec_dict : gmap string (list Z)) (aa_seqs : list string)
  : result (list (list Z)) :=
  match aa_seqs with
  | [] => Ok []
  | x :: rest =>
      match mask_vec_dict !! x with
      | Some v => vs ← lookup_all mask_vec_dict rest; Ok (v :: vs)
      | None => Err KeyError
      end
  end.

Definition get_mlm_masks (aa_seqs : list string) (mask_prob : Q)
    (mask_vecs : option (list (list Z))) (g : PyRandom.rng)
  : result (list Z * PyRandom.rng) :=
  '(mask_vec_dict, g') ← mlm_loop aa_seqs 0 mask_prob mask_vecs ∅ g;
  vecs ← lookup_all mask_vec_dict aa_seqs;
  mask_vec ← Torch.cat vecs;
  Ok (mask_vec, g').

(** ** [apply_mlm_masks] *)

(** Modelled from the spec: [RESD_NAMES_1C] of [prot_constants], the
    residue-type symbol enumeration of the 20 standard types. *)
Definition RESD_NAMES_1C : list string :=
  ["A"; "C"; "D"; "E"; "F"; "G"; "H"; "I"; "K"; "L";
   "M"; "N"; "P"; "Q"; "R"; "S"; "T"; "V"; "W"; "Y"]%string.

(** The alphabet used for tokenisation: its mask-token index and its
    symbol-to-index lookup. *)
Record alphabet : Type := Alphabet { mask_idx : Z; get_idx : string → Z }.

(** The two policy thresholds.  The random numbers are rationals here; a
    float32 number is below the float32 constant 0.8 exactly when it is
    below 8/10, and above the float32 constant 0.9 exactly when it is above
    9/10, both constants being the float32 numbers nearest to the
    fractions. *)
Definition thr_pri : Q := 8 # 10.
Definition thr_sec : Q := 9 # 10.

Definition apply_mlm_masks (tokn_mat_orig mask_mat : tensor Z) (alph : alphabet)
    (g : PyRandom.rng) (tg : generator Q)
  : result (tensor Z * PyRandom.rng * generator Q) :=
  match shape tokn_mat_orig with
  | [batch_size; seq_len] =>
      '(toks, g') ← PyRandom.choices RESD_NAMES_1C (batch_size * seq_len) g;
      let '(prob_mat, tg') := Torch.rand [batch_size; seq_len] tg in
      pri ← Torch.mul_bool mask_mat (Torch.lt prob_mat thr_pri);
      let mask_mat_pri := Torch.to_bool pri in
      sec ← Torch.mul_bool mask_mat (Torch.gt prob_mat thr_sec);
      let mask_mat_sec := Torch.to_bool sec in
      let tokn_mat_pri := Torch.scaled_ones_like (mask_idx alph) tokn_mat_orig in
      tokn_mat_sec ← Torch.of_list_view (get_idx alph <$> toks) [batch_size; seq_len];
      inner ← Torch.where_ mask_mat_sec tokn_mat_sec tokn_mat_orig;
      tokn_mat_pert ← Torch.where_ mask_mat_pri tokn_mat_pri inner;
      Ok (tokn_mat_pert, g', tg')
  | _ => Err ValueError
  end.

(** ** [init_qta_params] *)

(** Modelled from the spec: [N_ANGLS_PER_RESD] of [prot_constants], the
    fixed number K = 7 of torsion angles per residue. *)
Definition N_ANGLS_PER_RESD : nat := 7.

(** The entries of the floating-point tensors.  The initialiser uses the
    constants 0 and 1, the comparison with 0, the product with -1, the
    quotient and the L2 norm (sums of squares and a square root). *)
Class Scalar (F : Type) : Type := {
  s_zero : F;
  s_one : F;
  s_opp : F → F;
  s_add : F → F → F;
  s_mul : F → F → F;
  s_div : F → F → F;
  s_sqrt : F → F;
  s_ltb : F → F → bool
}.

(** IEEE 754 binary floating-point numbers are such entries. *)
#[export] Instance float_scalar : Scalar PrimFloat.float := {|
  s_zero := PrimFloat.zero;
  s_one := PrimFloat.one;
  s_opp := PrimFloat.opp;
  s_add := PrimFloat.add;
  s_mul := PrimFloat.mul;
  s_div := PrimFloat.div;
  s_sqrt := PrimFloat.sqrt;
  s_ltb := PrimFloat.ltb
|}.

(** [t.view(n_smpls, n_resds, ...)] of [n_smpls * n_resds] per-residue
    items: [n_smpls] rows of [n_resds] items each. *)
Fixpoint view_rows {A} (n_smpls n_resds : nat) (xs : list A) : list (list A) :=
  match n_smpls with
  | 0 => []
  | S n' => take n_resds xs :: view_rows n' n_resds (drop n_resds xs)
  end.

(** [torch.all(t, dim=2, keepdim=True)] for [t] of size N x L x 3, residue
    by residue over [n] residues. *)
Fixpoint all_dim2 (n : nat) (flags : list bool) : list bool :=
  match n with
  | 0 => []
  | S n' => forallb id (take 3 flags) :: all_dim2 n' (drop 3 flags)
  end.

(** [torch.where(rmsk, a, b)] with [rmsk] of size N x L x 1: the choice is
    made residue by residue. *)
Definition where_resd {A} (rmsk : list (list bool)) (a b : list (list A))
  : list (list A) :=
  zip_with (λ rm ab,
              zip_with (λ (m : bool) xy, if m then xy.1 else xy.2)
                       rm (zip ab.1 ab.2))
           rmsk (zip a b).

(** [torch.ones] / [torch.zeros] and their concatenations: every residue of
    every sample holds the same item. *)
Definition full {A} (n_smpls n_resds : nat) (x : A) : list (list A) :=
  replicate n_smpls (replicate n_resds x).

Section QTA.
Context {F : Type} `{Scalar F}.

(** Entries along the last dimension(s) of a residue. *)
Definition vec3 : Type := F * F * F.
Definition mat3 : Type := vec3 * vec3 * vec3.
Definition quat : Type := F * F * F * F.
Definition angl : Type := F * F.

(** The three returned tensors: N x L x 4, N x L x 3 and N x L x K x 2. *)
Definition qta : Type :=
  list (list quat) * list (list vec3) * list (list (list angl)).

(** [cord2fram_batch] and [rota2quat] belong to [utils.diff_util]; both
    work frame by frame, and the maps they apply to one frame are the
    parameters here (the quaternion type is fixed to 'full'). *)
Variable cord2fram : mat3 → mat3 * vec3.
Variable rota2quat : mat3 → quat.

Definition cord2fram_batch (frams : list mat3) : list mat3 * list vec3 :=
  ((λ f, (cord2fram f).1) <$> frams, (λ f, (cord2fram f).2) <$> frams).

(** [cord_tns.view(n_frams, 3, 3)]: refused when the number of entries is
    not [n_frams * 9]. *)
Fixpoint view_frams (n_frams : nat) (xs : list F) : result (list mat3) :=
  match n_frams, xs with
  | 0, [] => Ok []
  | S n', a :: b :: c :: d :: e :: f :: g :: h :: i :: rest =>
      frams ← view_frams n' rest;
      Ok (((a, b, c), (d, e, f), (g, h, i)) :: frams)
  | _, _ => Err RuntimeError
  end.

(** Freshly drawn entries, grouped along the last dimension. *)
Fixpoint group4 (xs : list F) : list quat :=
  match xs with
  | a :: b :: c :: d :: rest => (a, b, c, d) :: group4 rest
  | _ => []
  end.
Fixpoint group3 (xs : list F) : list vec3 :=
  match xs with
  | a :: b :: c :: rest => (a, b, c) :: group3 rest
  | _ => []
  end.
Fixpoint group2 (xs : list F) : list angl :=
  match xs with
  | a :: b :: rest => (a, b) :: group2 rest
  | _ => []
  end.

(** [q *= -1] where [q[0] < 0.0] *)
Definition quat_nonneg (q : quat) : quat :=
  let '(qr, qx, qy, qz) := q in
  if s_ltb qr s_zero then
    let m := s_opp s_one in (s_mul qr m, s_mul qx m, s_mul qy m, s_mul qz m)
  else q.

(** [q /= torch.norm(q)] *)
Definition quat_unit (q : quat) : quat :=
  let '(qr, qx, qy, qz) := q in
  let n := s_sqrt (s_add (s_add (s_add (s_mul qr qr) (s_mul qx qx))
                                (s_mul qy qy)) (s_mul qz qz)) in
  (s_div qr n, s_div qx n, s_div qy n, s_div qz n).

(** [a /= torch.norm(a)] *)
Definition angl_unit (a : angl) : angl :=
  let '(c, s) := a in
  let n := s_sqrt (s_add (s_mul c c) (s_mul s s)) in
  (s_div c n, s_div s n).

(** The quaternion, the translation and the angle pair of the canonical
    pose. *)
Definition quat_bh : quat := (s_one, s_zero, s_zero, s_zero).
Definition trsl_bh : vec3 := (s_zero, s_zero, s_zero).
Definition angl_bh : angl := (s_one, s_zero).

(** The 'black-hole' branch, which the '3d-cord' branch calls back. *)
Definition init_black_hole (n_smpls n_resds : nat) : qta :=
  (full n_smpls n_resds quat_bh,
   full n_smpls n_resds trsl_bh,
   full n_smpls n_resds (replicate N_ANGLS_PER_RESD angl_bh)).

Definition init_qta_params (n_smpls n_resds : nat) (mode : string)
    (cord_tns : option (tensor F)) (cmsk_tns : option (tensor bool))
    (tg : generator F)
  : result (qta * generator F) :=
  if decide (mode = "black-hole"%string) then
    Ok (init_black_hole n_smpls n_resds, tg)
  else if decide (mode = "3d-cord"%string) then
    match cord_tns with
    | None => Err AttributeError
    | Some cord =>
        if decide (shape cord = [n_smpls; n_resds; 3; 3]) then
          match cmsk_tns with
          | None => Err AttributeError
          | Some cmsk =>
              if decide (shape cmsk = [n_smpls; n_resds; 3]) then
                let n_frams := n_smpls * n_resds in
                frams ← view_frams n_frams (data cord);
                let '(rota_tns, trsl_mat) := cord2fram_batch frams in
                let quat_tns := view_rows n_smpls n_resds (rota2quat <$> rota_tns) in
                let trsl_tns := view_rows n_smpls n_resds trsl_mat in
                let angl_tns :=
                  full n_smpls n_resds (replicate N_ANGLS_PER_RESD angl_bh) in
                let rmsk_tns :=
                  view_rows n_smpls n_resds (all_dim2 n_frams (data cmsk)) in
                let '(quat_tns_bh, trsl_tns_bh, _) :=
                  init_black_hole n_smpls n_resds in
                let quat_tns := where_resd rmsk_tns quat_tns quat_tns_bh in
                let trsl_tns := where_resd rmsk_tns trsl_tns trsl_tns_bh in
                Ok (quat_tns, trsl_tns, angl_tns, tg)
              else Err AssertionError
          end
        else Err AssertionError
    end
  else if decide (mode = "random"%string) then
    let n_frams := n_smpls * n_resds in
    let '(qs, tg1) := draws (n_frams * 4) tg in
    let quat_tns :=
      view_rows n_smpls n_resds (quat_unit <$> (quat_nonneg <$> group4 qs)) in
    let '(ts, tg2) := draws (n_frams * 3) tg1 in
    let trsl_tns := view_rows n_smpls n_resds (group3 ts) in
    let '(aa, tg3) := draws (n_frams * N_ANGLS_PER_RESD * 2) tg2 in
    let angl_tns :=
      view_rows n_smpls n_resds
        (view_rows n_frams N_ANGLS_PER_RESD (angl_unit <$> group2 aa)) in
    Ok (quat_tns, trsl_tns, angl_tns, tg3)
  else Err ValueError.

End QTA.

(** ** Vocabulary of the statements *)

(** The number of entries of a mask vector that are 1. *)
Definition count_ones (v : list Z) : nat := length (filter (λ x, x = 1%Z) v).

(** [aa_seqs.index(s)]: the position of the first occurrence of [s]. *)
Fixpoint index_of (s : string) (aa_seqs : list string) : nat :=
  match aa_seqs with
  | [] => 0
  | x :: rest => if decide (x = s) then 0 else S (index_of s rest)
  end.

(** Where the part of occurrence [i] starts in the concatenated masks. *)
Definition offset (aa_seqs : list string) (i : nat) : nat :=
  sum_list (String.length <$> take i aa_seqs).

(** The concatenated masks restricted to the positions of occurrence [i],
    whose sequence is [s]. *)
Definition segment (mask_vec : list Z) (aa_seqs : list string) (i : nat) (s : string)
  : list Z :=
  take (String.length s) (drop (offset aa_seqs i) mask_vec).


(** The dictionary holds exactly the sequences of [seen]. *)
Definition dict_of (seen : list string) (d : gmap string (list Z)) : Prop :=
  ∀ s, is_Some (d !! s) ↔ s ∈ seen.



(** The [k]-th value a generator is going to deliver. *)
Definition peek {A} (g : generator A) (k : nat) : A := entropy g (cursor g + k).

(** The item of residue [j] of sample [i] in an N x L arrangement. *)
Definition at2 {A} (t : list (list A)) (i j : nat) : option A :=
  row ← t !! i; row !! j.

(** The coordinates of the three atoms of the [k]-th residue of a
    coordinate tensor, read from its row-major entries. *)
Definition frame_at {F} (xs : list F) (k : nat) : option (@mat3 F) :=
  match drop (k * 9) xs with
  | a :: b :: c :: d :: e :: f :: g :: h :: i :: _ =>
      Some ((a, b, c), (d, e, f), (g, h, i))
  | _ => None
  end.

(** The three atom-validity flags of the [k]-th residue of a mask tensor. *)
Definition flags_at (flags : list bool) (k : nat) : option (bool * bool * bool) :=
  match drop (k * 3) flags with
  | a :: b :: c :: _ => Some (a, b, c)
  | _ => None
  end.

(** Position [j] of sequence [s] may be masked when the indicators of [s]
    are those at position [i]: any position of the sequence without
    indicators, a position with a non-zero indicator otherwise. *)
Definition eligible (s : string) (i : nat) (mask_vecs : option (list (list Z)))
    (j : nat) : Prop :=
  match mask_vecs with
  | None => j < String.length s
  | Some mvs => ∃ v x, mvs !! i = Some v ∧ v !! j = Some x ∧ x ≠ 0%Z
  end.

(** An N x L arrangement of per-residue items. *)
Definition has_shape {A} (n_smpls n_resds : nat) (t : list (list A)) : Prop :=
  length t = n_smpls ∧ Forall (λ row, length row = n_resds) t.

(** The number of positions at which two lists of tokens differ, and the
    number of masked positions of a mask. *)
Definition n_changed (a b : list Z) : nat :=
  length (filter (λ xy, xy.1 ≠ xy.2) (zip a b)).
Definition n_masked (m : list Z) : nat := length (filter (λ x, x ≠ 0%Z) m).

(** ** Inputs of the examples *)

(** A state of Python's generator and a state of torch's generator. *)
Definition example_rng : PyRandom.rng := Generator (λ n, 7 * n + 3) 0.
Definition example_uniform : generator Q :=
  Generator (λ n, Z.of_nat ((37 * n + 85) mod 100) # 100) 0.
Definition example_normal : generator PrimFloat.float :=
  Generator (λ _, PrimFloat.one) 0.

(** An alphabet with the 20 residue types at 4..23 and the mask token 32. *)
Definition example_alphabet : alphabet :=
  Alphabet 32 (λ x, Z.of_nat (4 + index_of x RESD_NAMES_1C)).

(** A frame builder and a quaternion codec to run the initialiser with: the
    translation is the position of the second atom (CA). *)
Definition example_cord2fram (fr : @mat3 PrimFloat.float)
  : @mat3 PrimFloat.float * @vec3 PrimFloat.float := (fr, fr.1.2).
Definition example_rota2quat (r : @mat3 PrimFloat.float) : @quat PrimFloat.float :=
  (r.1.1.1.1, r.1.1.1.2, r.1.1.2, r.1.2.1.1).

(** The floating-point number of a natural number. *)
Fixpoint float_of_nat (n : nat) : PrimFloat.float :=
  match n with
  | 0 => PrimFloat.zero
  | S n' => PrimFloat.add (float_of_nat n') PrimFloat.one
  end.

(** One sample of two residues with the coordinates 1.0 .. 18.0; the second
    residue misses its CA atom. *)
Definition example_cord : tensor PrimFloat.float :=
  Tensor [1; 2; 3; 3] (float_of_nat <$> seq 1 18).
Definition example_cmsk : tensor bool :=
  Tensor [1; 2; 3] [true; true; true; true; false; true].

(** The same sample with other coordinates at its second residue, and a
    mask that marks an atom of either residue as invalid. *)
Definition example_cord_other : tensor PrimFloat.float :=
  Tensor [1; 2; 3; 3] (float_of_nat <$> (seq 1 9 ++ seq 101 9)).
Definition example_cmsk_invalid : tensor bool :=
  Tensor [1; 2; 3] [true; false; true; false; false; true].

(** * Properties *)

(** ** The result monad *)

Lemma bind_Ok {A B} (m : result A) (f : A → result B) (b : B) :
  m ≫= f = Ok b → ∃ a, m = Ok a ∧ f a = Ok b.
Proof. destruct m as [a|e]; simpl; [eauto | discriminate]. Qed.

(** ** [random.sample] *)

Lemma randbelow_lt (n : nat) (g : PyRandom.rng) :
  0 < n → (PyRandom.randbelow n g).1 < n.
Proof.
  intros Hn. unfold PyRandom.randbelow, draw. simpl.
  apply Nat.mod_upper_bound. lia.
Qed.

(** Taking the item at [j] out of the pool and moving the last item into
    the vacancy leaves exactly the other items. *)
Lemma pool_step {A} (pool : list A) (j : nat) (x y : A) :
  pool !! j = Some x → last pool = Some y →
  x :: take (length pool - 1) (<[j := y]> pool) ≡ₚ pool.
Proof.
  intros Hj Hlast. apply last_Some in Hlast as [init ->].
  rewrite length_app. simpl. replace (length init + 1 - 1) with (length init) by lia.
  destruct (decide (j < length init)) as [Hlt|Hge].
  - rewrite insert_app_l by done.
    rewrite take_app_length' by (by rewrite length_insert).
    rewrite lookup_app_l in Hj by done.
    rewrite <- (take_drop_middle init j x Hj) at 2.
    rewrite insert_take_drop by done.
    rewrite <- !app_assoc. simpl.
    rewrite (Permutation_middle (take j init) _ x).
    apply Permutation_app_head.
    rewrite <- Permutation_middle. apply perm_skip.
    by rewrite app_nil_r.
  - apply lookup_lt_Some in Hj as Hlen. rewrite length_app in Hlen. simpl in Hlen.
    assert (j = length init) as -> by lia.
    rewrite list_lookup_middle in Hj by done. injection Hj as ->.
    rewrite insert_app_r_alt by lia. rewrite Nat.sub_diag. simpl.
    rewrite take_app_length. by rewrite Permutation_app_comm.
Qed.

(** The selection loop returns [k] items and leaves the rest of the pool:
    the selected items are at pairwise different positions. *)
Lemma sample_pool_perm {A} (k : nat) : ∀ (pool : list A) (g : PyRandom.rng),
  k ≤ length pool →
  length (PyRandom.sample_pool pool k g).1 = k ∧
  ∃ rest, (PyRandom.sample_pool pool k g).1 ++ rest ≡ₚ pool.
Proof.
  induction k as [|k IH]; intros pool g Hk; cbn [PyRandom.sample_pool].
  - split; [done | by exists pool].
  - destruct (PyRandom.randbelow (length pool) g) as [j g1] eqn:Hrb.
    assert (j < length pool) as Hj.
    { pose proof (randbelow_lt (length pool) g) as Hlt. rewrite Hrb in Hlt.
      apply Hlt. lia. }
    destruct (lookup_lt_is_Some_2 pool j Hj) as [x Hx]. rewrite Hx.
    destruct (last pool) as [y|] eqn:Hlast.
    2:{ apply last_None in Hlast. subst pool. simpl in Hk. lia. }
    pose proof (pool_step pool j x y Hx Hlast) as Hperm.
    set (pool' := take (length pool - 1) (<[j:=y]> pool)) in *.
    assert (length pool' = length pool - 1) as Hlen'.
    { apply Permutation_length in Hperm. simpl in Hperm. lia. }
    destruct (IH pool' g1) as [Hlen [rest Hrest]]; [lia|].
    destruct (PyRandom.sample_pool pool' k g1) as [res g2]. simpl in *.
    split; [by rewrite Hlen|].
    exists rest. by rewrite Hrest.
Qed.

Lemma sample_Ok {A} (population : list A) (k : Z) (g : PyRandom.rng) res g' :
  PyRandom.sample population k g = Ok (res, g') →
  (0 ≤ k ≤ Z.of_nat (length population))%Z ∧
  length res = Z.to_nat k ∧ ∃ rest, res ++ rest ≡ₚ population.
Proof.
  unfold PyRandom.sample. case_decide as Hk; [|discriminate].
  intros [= Heq]. split; [done|].
  pose proof (sample_pool_perm (Z.to_nat k) population g) as Hs.
  destruct (PyRandom.sample_pool population (Z.to_nat k) g) as [r g2].
  injection Heq as -> ->. apply Hs. lia.
Qed.


Lemma sample_Err {A} (population : list A) (k : Z) (g : PyRandom.rng) e :
  PyRandom.sample population k g = Err e →
  e = ValueError ∧ ¬ (0 ≤ k ≤ Z.of_nat (length population))%Z.
Proof.
  unfold PyRandom.sample. case_decide; [discriminate|]. by intros [= <-].
Qed.

(** ** One-dimensional tensors *)

Lemma nonzero_from_bound (v : list Z) : ∀ i j,
  j ∈ Torch.nonzero_from i v → i ≤ j < i + length v.
Proof.
  induction v as [|x v IH]; intros i j; simpl.
  - by intros ?%elem_of_nil.
  - case_decide.
    + intros Hj%IH. lia.
    + intros [->|Hj%IH]%elem_of_cons; lia.
Qed.

Lemma nonzero_from_NoDup (v : list Z) : ∀ i, NoDup (Torch.nonzero_from i v).
Proof.
  induction v as [|x v IH]; intros i; simpl; [constructor|].
  case_decide; [done|]. constructor; [|done].
  intros Hi%nonzero_from_bound. lia.
Qed.


Lemma nonzero_NoDup (v : list Z) : NoDup (Torch.nonzero v).
Proof. apply nonzero_from_NoDup. Qed.

Lemma count_ones_zeros (n : nat) : count_ones (Torch.zeros n) = 0.
Proof.
  unfold count_ones, Torch.zeros. induction n as [|n IH]; [done|].
  simpl. by rewrite filter_cons_False.
Qed.

Lemma count_ones_insert (t : list Z) : ∀ i,
  t !! i = Some 0%Z → count_ones (<[i := 1%Z]> t) = S (count_ones t).
Proof.
  unfold count_ones. induction t as [|x t IH]; intros [|i] Hi; try done.
  - injection Hi as ->. change (<[0:=1%Z]> (0%Z :: t)) with (1%Z :: t).
    rewrite filter_cons_True by done. by rewrite filter_cons_False.
  - change (<[S i:=1%Z]> (x :: t)) with (x :: <[i:=1%Z]> t).
    rewrite !filter_cons.
    case_decide; cbn [length]; by rewrite IH.
Qed.

(** Writing 1 at pairwise different positions that hold 0 adds as many
    ones as there are positions. *)
Lemma index_put_count (idxs : list nat) : ∀ t : list Z,
  NoDup idxs → (∀ i, i ∈ idxs → t !! i = Some 0%Z) →
  ∃ t', Torch.index_put t idxs 1%Z = Ok t' ∧ length t' = length t ∧
        count_ones t' = count_ones t + length idxs.
Proof.
  induction idxs as [|i idxs IH]; intros t Hnd Hz; simpl.
  - exists t. split_and!; [done|done|lia].
  - apply NoDup_cons in Hnd as [Hni Hnd].
    pose proof (Hz i ltac:(left)) as Hi.
    rewrite decide_True by (by eapply lookup_lt_Some).
    destruct (IH (<[i:=1%Z]> t) Hnd) as (t' & Hput & Hlen & Hcnt).
    { intros j Hj. rewrite list_lookup_insert_ne; [apply Hz; by right|].
      intros ->. done. }
    exists t'. split_and!; [done| |].
    + by rewrite Hlen, length_insert.
    + rewrite Hcnt, count_ones_insert by done. lia.
Qed.

Lemma index_put_Ok (idxs : list nat) : ∀ (t t' : list Z) x,
  Torch.index_put t idxs x = Ok t' →
  length t' = length t ∧ ∀ i, i ∈ idxs → i < length t.
Proof.
  induction idxs as [|i idxs IH]; intros t t' x; simpl.
  - intros [= <-]. split; [done|]. by intros i ?%elem_of_nil.
  - case_decide as Hi; [|discriminate]. intros [Hlen Hin]%IH.
    rewrite length_insert in Hlen, Hin. split; [done|].
    by intros j [->|Hj]%elem_of_cons; [|apply Hin].
Qed.

Lemma index_put_Err (idxs : list nat) : ∀ (t : list Z) x e,
  Torch.index_put t idxs x = Err e → e = IndexError.
Proof.
  induction idxs as [|i idxs IH]; intros t x e; simpl; [discriminate|].
  case_decide; [apply IH | by intros [= <-]].
Qed.

(** ** The number of masked residues *)

Lemma n_resds_mask_of_unfold (n : nat) (p : Q) :
  n_resds_mask_of n p =
  ((Z.of_nat n * Qnum p * 2 + Zpos (Qden p)) ÷ (Zpos (Qden p) * 2))%Z.
Proof.
  unfold n_resds_mask_of, py_int. destruct p as [pn pd]. simpl.
  f_equal; lia.
Qed.



(** ** One sequence: [gen_mask] *)

Lemma bind_Err {A B} (m : result A) (f : A → result B) (e : error) :
  m ≫= f = Err e → m = Err e ∨ ∃ a, m = Ok a ∧ f a = Err e.
Proof. destruct m as [a|e']; simpl; [eauto | intros [= ->]; auto]. Qed.

Lemma zeros_lookup (n i : nat) : i < n → Torch.zeros n !! i = Some 0%Z.
Proof. intros Hi. by apply lookup_replicate_2. Qed.

Lemma zeros_length (n : nat) : length (Torch.zeros n) = n.
Proof. apply length_replicate. Qed.

(** The candidates are pairwise different positions. *)
Lemma idxs_resd_cand_of_NoDup s i mask_vecs cand :
  idxs_resd_cand_of s i mask_vecs = Ok cand → NoDup cand.
Proof.
  unfold idxs_resd_cand_of. destruct mask_vecs as [mvs|].
  - destruct (mvs !! i) as [v|]; [|discriminate].
    intros [= <-]. apply nonzero_NoDup.
  - intros [= <-]. apply NoDup_seq.
Qed.

(** A selection from pairwise different positions consists of pairwise
    different positions, all of them candidates. *)
Lemma selection_NoDup (res rest cand : list nat) :
  res ++ rest ≡ₚ cand → NoDup cand → NoDup res ∧ ∀ j, j ∈ res → j ∈ cand.
Proof.
  intros Hperm Hnd. rewrite <- Hperm in Hnd.
  apply NoDup_app in Hnd as (Hres & _ & _). split; [done|].
  intros j Hj. rewrite <- Hperm. apply elem_of_app. by left.
Qed.


(** Whatever the indicators, a returned mask is as long as its sequence and
    has the computed number of ones. *)
Lemma gen_mask_Ok s i p mask_vecs g v g' :
  gen_mask s i p mask_vecs g = Ok (v, g') →
  ∃ cand, idxs_resd_cand_of s i mask_vecs = Ok cand ∧
          length v = String.length s ∧
          Z.of_nat (count_ones v) = n_resds_mask_of (length cand) p.
Proof.
  intros Hgen. unfold gen_mask in Hgen.
  apply bind_Ok in Hgen as (cand & Hcand & Hgen). exists cand. split; [done|].
  apply bind_Ok in Hgen as ([res g1] & Hs & Hgen).
  apply bind_Ok in Hgen as (t' & Hput & Hgen). injection Hgen as -> ->.
  apply sample_Ok in Hs as (Hk & Hlen & rest & Hperm).
  destruct (selection_NoDup res rest cand Hperm) as [Hnd Hsub].
  { by eapply idxs_resd_cand_of_NoDup. }
  pose proof (index_put_Ok _ _ _ _ Hput) as [Hlen' Hin].
  rewrite zeros_length in Hlen', Hin.
  destruct (index_put_count res (Torch.zeros (String.length s)) Hnd)
    as (t'' & Hput' & _ & Hcnt).
  { intros j Hj. apply zeros_lookup. auto. }
  rewrite Hput in Hput'. injection Hput' as <-.
  split; [done|]. rewrite Hcnt, count_ones_zeros, Hlen. lia.
Qed.


(** ** First occurrences *)

Lemma index_of_app_in s (pre rest : list string) :
  s ∈ pre → index_of s (pre ++ rest) = index_of s pre.
Proof.
  induction pre as [|x pre IH]; [by intros ?%elem_of_nil|].
  intros Hin. simpl. case_decide; [done|].
  f_equal. apply IH. apply elem_of_cons in Hin as [->|]; done.
Qed.

Lemma index_of_app_notin s (pre rest : list string) :
  s ∉ pre → index_of s (pre ++ s :: rest) = length pre.
Proof.
  induction pre as [|x pre IH]; intros Hnin; simpl.
  - by rewrite decide_True.
  - apply not_elem_of_cons in Hnin as [Hne Hnin].
    rewrite decide_False by done. f_equal. by apply IH.
Qed.

Lemma index_of_lookup s (l : list string) : s ∈ l → l !! index_of s l = Some s.
Proof.
  induction l as [|x l IH]; [by intros ?%elem_of_nil|].
  intros Hin. simpl. case_decide as Hx; [by subst|].
  apply elem_of_cons in Hin as [->|Hin]; [done|]. by apply IH.
Qed.

(** ** The loop over the sequences *)

Section MlmLoop.
Variable mask_prob : Q.
Variable mask_vecs : option (list (list Z)).

Lemma dict_of_skip pre d a : dict_of pre d → is_Some (d !! a) → dict_of (pre ++ [a]) d.
Proof.
  intros Hd Ha s. rewrite elem_of_app, list_elem_of_singleton. split.
  - intros Hs. left. by apply Hd.
  - intros [Hs| ->]; [by apply Hd | done].
Qed.

Lemma dict_of_insert pre d a v : dict_of pre d → dict_of (pre ++ [a]) (<[a := v]> d).
Proof.
  intros Hd s. rewrite elem_of_app, list_elem_of_singleton.
  destruct (decide (a = s)) as [->|Hne].
  - rewrite lookup_insert_eq. split; [auto | eauto].
  - rewrite lookup_insert_ne by done. split.
    + intros Hs. left. by apply Hd.
    + intros [Hs|?]; [by apply Hd | done].
Qed.

(** Every mask in the final dictionary was made by the body of the loop at
    the first occurrence of its sequence. *)
Lemma mlm_loop_inv (P : string → nat → list Z → Prop) :
  (∀ s i g v g', gen_mask s i mask_prob mask_vecs g = Ok (v, g') → P s i v) →
  ∀ rest pre d g d' g',
    dict_of pre d →
    (∀ s v, d !! s = Some v → P s (index_of s pre) v) →
    mlm_loop rest (length pre) mask_prob mask_vecs d g = Ok (d', g') →
    dict_of (pre ++ rest) d' ∧
    (∀ s v, d' !! s = Some v → P s (index_of s (pre ++ rest)) v).
Proof.
  intros Hgen. induction rest as [|a rest IH]; intros pre d g d' g' Hd HP Hloop.
  - injection Hloop as <- <-. by rewrite app_nil_r.
  - cbn [mlm_loop] in Hloop. rewrite (cons_middle a pre rest), app_assoc.
    assert (length (pre ++ [a]) = S (length pre)) as Hlen
      by (rewrite length_app; simpl; lia).
    destruct (d !! a) as [va|] eqn:Ha.
    + rewrite <- Hlen in Hloop. apply IH in Hloop; [done| |].
      * apply dict_of_skip; eauto.
      * intros s v Hs. rewrite index_of_app_in by (apply Hd; eauto). auto.
    + apply bind_Ok in Hloop as ([v g1] & Hg & Hloop).
      rewrite <- Hlen in Hloop. apply IH in Hloop; [done| |].
      * by apply dict_of_insert.
      * intros s v' Hs. destruct (decide (a = s)) as [->|Hne].
        -- rewrite lookup_insert_eq in Hs. injection Hs as <-.
           rewrite index_of_app_notin; [eauto|].
           intros Hin%Hd. rewrite Ha in Hin. by destruct Hin.
        -- rewrite lookup_insert_ne in Hs by done.
           rewrite index_of_app_in by (apply Hd; eauto). auto.
Qed.


End MlmLoop.

(** ** Reading the dictionary back and concatenating *)

Lemma lookup_all_Ok d (aa_seqs : list string) vecs :
  lookup_all d aa_seqs = Ok vecs → Forall2 (λ s v, d !! s = Some v) aa_seqs vecs.
Proof.
  revert vecs. induction aa_seqs as [|x rest IH]; intros vecs; simpl.
  - intros [= <-]. constructor.
  - destruct (d !! x) as [v|] eqn:Hx; [|discriminate].
    intros (vs & Hvs & [= <-])%bind_Ok. constructor; auto.
Qed.

Lemma lookup_all_is_ok d (aa_seqs : list string) :
  (∀ s, s ∈ aa_seqs → is_Some (d !! s)) → ∃ vecs, lookup_all d aa_seqs = Ok vecs.
Proof.
  induction aa_seqs as [|x rest IH]; intros Hin; simpl; [eauto|].
  destruct (Hin x) as [v ->]; [by left|].
  destruct IH as [vs ->]; [intros; apply Hin; by right|]. simpl. eauto.
Qed.

Lemma lookup_all_Err d (aa_seqs : list string) e :
  lookup_all d aa_seqs = Err e → e = KeyError.
Proof.
  induction aa_seqs as [|x rest IH]; simpl; [discriminate|].
  destruct (d !! x); [|by intros [= <-]].
  intros [?|(? & _ & ?)]%bind_Err; [auto|done].
Qed.

(** The concatenation of masks of the right lengths, restricted to the
    positions of one occurrence, is the mask of that occurrence. *)
Lemma segment_concat (aa_seqs : list string) (vecs : list (list Z)) :
  Forall2 (λ s v, length v = String.length s) aa_seqs vecs →
  ∀ i s v, aa_seqs !! i = Some s → vecs !! i = Some v →
    segment (concat vecs) aa_seqs i s = v.
Proof.
  unfold segment, offset.
  induction 1 as [|s0 v0 aa_seqs vecs Hlen _ IH]; intros i s v Hs Hv; [done|].
  destruct i as [|i]; simpl in *.
  - injection Hs as <-. injection Hv as <-.
    rewrite drop_0, <- Hlen. by rewrite take_app_length.
  - rewrite <- Hlen, drop_app_add. by apply IH.
Qed.

(** ** The whole call *)





(** What a returned call went through: a dictionary of the sequences of the
    input, every entry made by the body of the loop at the first occurrence
    of its sequence, read back in input order and concatenated. *)
Lemma get_mlm_masks_Ok (P : string → nat → list Z → Prop) aa_seqs p mask_vecs g out g' :
  (∀ s i g v g', gen_mask s i p mask_vecs g = Ok (v, g') → P s i v) →
  get_mlm_masks aa_seqs p mask_vecs g = Ok (out, g') →
  ∃ (d : gmap string (list Z)) vecs,
            (∀ s v, d !! s = Some v → P s (index_of s aa_seqs) v) ∧
            Forall2 (λ s v, d !! s = Some v) aa_seqs vecs ∧
            out = concat vecs.
Proof.
  intros HP Hcall. unfold get_mlm_masks in Hcall.
  apply bind_Ok in Hcall as ([d g1] & Hloop & Hcall).
  apply bind_Ok in Hcall as (vecs & Hvecs & Hcall).
  apply bind_Ok in Hcall as (mv & Hcat & Hcall). injection Hcall as <- <-.
  apply (mlm_loop_inv p mask_vecs P HP aa_seqs [] ∅ g d g1) in Hloop as [_ Hd].
  - exists d, vecs. split_and!; [done|by apply lookup_all_Ok|].
    unfold Torch.cat in Hcat. destruct vecs; [done|]. by injection Hcat as <-.
  - intros s. rewrite lookup_empty, elem_of_nil. split; [by intros [? ?]|done].
  - intros s v. by rewrite lookup_empty.
Qed.


(** C2: in the output of one call, the parts that belong to two occurrences
    of the same sequence are equal, entry by entry. *)
Theorem get_mlm_masks_duplicates (aa_seqs : list string) (p : Q)
    (mask_vecs : option (list (list Z))) (g g' : PyRandom.rng) (out : list Z) :
  get_mlm_masks aa_seqs p mask_vecs g = Ok (out, g') →
  ∀ i j s, aa_seqs !! i = Some s → aa_seqs !! j = Some s →
    segment out aa_seqs i s = segment out aa_seqs j s.
Proof.
  intros Hcall i j s Hi Hj.
  apply (get_mlm_masks_Ok (λ s _ v, length v = String.length s)) in Hcall
    as (d & vecs & Hd & Hall & ->).
  2:{ intros s0 i0 g0 v g1 (cand & _ & Hlen & _)%gen_mask_Ok. done. }
  assert (Forall2 (λ s v, length v = String.length s) aa_seqs vecs) as Hlens.
  { eapply Forall2_impl; [exact Hall|]. intros s' v' Hs'. by apply Hd in Hs'. }
  destruct (Forall2_lookup_l _ _ _ _ _ Hall Hi) as (vi & Hvi & Hdi).
  destruct (Forall2_lookup_l _ _ _ _ _ Hall Hj) as (vj & Hvj & Hdj).
  rewrite (segment_concat _ _ Hlens i s vi), (segment_concat _ _ Hlens j s vj) by done.
  congruence.
Qed.

(** ** Failing calls *)



(** The body of the loop reads the indicators of its own position only. *)
Lemma gen_mask_ext s i p (mvs mvs' : list (list Z)) g :
  mvs !! i = mvs' !! i →
  gen_mask s i p (Some mvs) g = gen_mask s i p (Some mvs') g.
Proof. intros Heq. unfold gen_mask, idxs_resd_cand_of. by rewrite Heq. Qed.

(** The loop reads the indicators at first occurrences only. *)
Lemma mlm_loop_ext p (mvs mvs' : list (list Z)) : ∀ rest pre d g,
  dict_of pre d →
  (∀ s, s ∈ rest → s ∉ pre →
     mvs !! index_of s (pre ++ rest) = mvs' !! index_of s (pre ++ rest)) →
  mlm_loop rest (length pre) p (Some mvs) d g
  = mlm_loop rest (length pre) p (Some mvs') d g.
Proof.
  induction rest as [|a rest IH]; intros pre d g Hd Heq; [done|].
  cbn [mlm_loop].
  assert (length (pre ++ [a]) = S (length pre)) as Hlen
    by (rewrite length_app; simpl; lia).
  assert (∀ s, s ∈ rest → s ∉ pre ++ [a] →
     mvs !! index_of s ((pre ++ [a]) ++ rest)
     = mvs' !! index_of s ((pre ++ [a]) ++ rest)) as Heq'.
  { intros s Hs Hnin. rewrite <- app_assoc. simpl.
    apply Heq; [by right|]. intros ?. apply Hnin, elem_of_app. by left. }
  destruct (d !! a) as [va|] eqn:Ha.
  - rewrite <- Hlen. apply IH; [|done]. apply dict_of_skip; eauto.
  - assert (a ∉ pre) as Hnin.
    { intros Hin%Hd. rewrite Ha in Hin. by destruct Hin. }
    rewrite (gen_mask_ext a (length pre) p mvs mvs').
    2:{ rewrite <- (index_of_app_notin a pre rest Hnin). apply Heq; [by left|done]. }
    destruct (gen_mask a (length pre) p (Some mvs') g) as [[v g1]|e]; [|done].
    simpl. rewrite <- Hlen. apply IH; [|done]. by apply dict_of_insert.
Qed.

Lemma dict_of_empty : dict_of [] ∅.
Proof.
  intros s. rewrite lookup_empty, elem_of_nil. split; [by intros [? ?]|done].
Qed.



(** C9: two lists of indicators that agree at the first occurrence of every
    sequence give the same result; the indicators at later occurrences of a
    sequence have no influence. *)
Theorem get_mlm_masks_first_occurrence_only (aa_seqs : list string) (p : Q)
    (mvs mvs' : list (list Z)) (g : PyRandom.rng) :
  (∀ i s, aa_seqs !! i = Some s → index_of s aa_seqs = i → mvs !! i = mvs' !! i) →
  get_mlm_masks aa_seqs p (Some mvs) g = get_mlm_masks aa_seqs p (Some mvs') g.
Proof.
  intros Heq. unfold get_mlm_masks.
  change 0 with (length (@nil string)).
  rewrite (mlm_loop_ext p mvs mvs' aa_seqs [] ∅ g dict_of_empty); [done|].
  intros s Hs _. simpl. apply (Heq _ s); [by apply index_of_lookup|done].
Qed.

(** ** Drawing from a generator *)

Lemma draws_spec {A} (n : nat) : ∀ g : generator A,
  length (draws n g).1 = n ∧
  (draws n g).2 = Generator (entropy g) (cursor g + n) ∧
  ∀ k, k < n → (draws n g).1 !! k = Some (peek g k).
Proof.
  unfold peek. induction n as [|n IH]; intros g; cbn [draws].
  - split_and!; [done|destruct g; simpl; f_equal; lia|lia].
  - unfold draw. destruct (IH (Generator (entropy g) (S (cursor g)))) as (Hl & Hg & Hk).
    destruct (draws n _) as [xs g2]. simpl in *. split_and!.
    + by rewrite Hl.
    + rewrite Hg. f_equal. lia.
    + intros [|k] Hlt; simpl.
      * by rewrite Nat.add_0_r.
      * rewrite Hk by lia. do 2 f_equal. lia.
Qed.

Lemma choices_spec {A} (population : list A) (n : nat) : ∀ g : PyRandom.rng,
  population ≠ [] →
  ∃ toks g', PyRandom.choices population n g = Ok (toks, g') ∧
    length toks = n ∧
    ∀ k, k < n → toks !! k = population !! (peek g k mod length population).
Proof.
  unfold peek. induction n as [|n IH]; intros g Hne; cbn [PyRandom.choices].
  - eexists _, _. split_and!; [done|done|lia].
  - unfold PyRandom.randbelow, draw.
    assert (entropy g (cursor g) mod length population < length population) as Hj.
    { apply Nat.mod_upper_bound. destruct population; [done|simpl; lia]. }
    destruct (lookup_lt_is_Some_2 _ _ Hj) as [x Hx]. rewrite Hx.
    destruct (IH (Generator (entropy g) (S (cursor g))) Hne) as (toks & g' & -> & Hl & Hk).
    simpl. eexists _, _. split_and!; [done|by rewrite <- Hl|].
    intros [|k] Hlt; simpl.
    + by rewrite Nat.add_0_r.
    + rewrite Hk by lia. simpl. do 3 f_equal. lia.
Qed.




(** ** [apply_mlm_masks] *)

Lemma map2_Ok {A B C} (f : A → B → C) (a : tensor A) (b : tensor B) :
  shape a = shape b →
  Torch.map2 f a b = Ok (Tensor (shape a) (zip_with f (data a) (data b))).
Proof. intros Hs. unfold Torch.map2. by rewrite decide_True. Qed.

Lemma where_Ok {A} (c : tensor bool) (a b : tensor A) :
  shape a = shape b → shape c = shape a →
  Torch.where_ c a b
  = Ok (Tensor (shape c)
          (zip_with (λ (m : bool) '(x, y), if m then x else y) (data c)
                    (zip_with pair (data a) (data b)))).
Proof.
  intros Hab Hca. unfold Torch.where_. rewrite (map2_Ok pair) by done.
  cbn [mbind result_bind]. by rewrite map2_Ok.
Qed.

(** Shapes of pointwise results, up to the shapes of the arguments. *)
Ltac solve_shape :=
  cbn [shape Torch.map Torch.to_bool Torch.lt Torch.gt Torch.scaled_ones_like];
  congruence.



(** ** Views of per-residue items *)

Lemma view_rows_at2 {A} (n l : nat) : ∀ (xs : list A) i j,
  i < n → j < l → at2 (view_rows n l xs) i j = xs !! (i * l + j).
Proof.
  unfold at2. induction n as [|n IH]; intros xs i j Hi Hj; [lia|].
  destruct i as [|i]; simpl.
  - by rewrite lookup_take_lt.
  - rewrite IH by lia. rewrite lookup_drop. f_equal. lia.
Qed.

Lemma full_at2 {A} (n l : nat) (x : A) i j :
  i < n → j < l → at2 (full n l x) i j = Some x.
Proof.
  intros Hi Hj. unfold at2, full. rewrite lookup_replicate_2 by done. simpl.
  by rewrite lookup_replicate_2.
Qed.

Lemma where_resd_at2 {A} (rmsk : list (list bool)) (a b : list (list A)) i j m x y :
  at2 rmsk i j = Some m → at2 a i j = Some x → at2 b i j = Some y →
  at2 (where_resd rmsk a b) i j = Some (if m then x else y).
Proof.
  unfold at2, where_resd. intros Hm Hx Hy.
  destruct (rmsk !! i) as [rm|] eqn:Hrm; [|done].
  destruct (a !! i) as [ra|] eqn:Hra; [|done].
  destruct (b !! i) as [rb|] eqn:Hrb; [|done]. simpl in *.
  rewrite lookup_zip_with, Hrm. simpl.
  rewrite lookup_zip_with, Hra, Hrb. simpl.
  rewrite lookup_zip_with, Hm. simpl.
  rewrite lookup_zip_with, Hx, Hy. done.
Qed.

Lemma all_dim2_spec (n : nat) : ∀ flags : list bool,
  length flags = n * 3 →
  length (all_dim2 n flags) = n ∧
  ∀ k, k < n → ∃ a b c, flags_at flags k = Some (a, b, c) ∧
                        all_dim2 n flags !! k = Some (a && b && c).
Proof.
  unfold flags_at. induction n as [|n IH]; intros flags Hlen.
  - split; [done|lia].
  - destruct flags as [|a [|b [|c rest]]]; simpl in Hlen; try lia.
    destruct (IH rest) as [Hl Hk]; [lia|].
    change (all_dim2 (S n) (a :: b :: c :: rest))
      with ((a && (b && (c && true))) :: all_dim2 n rest).
    split; [simpl; by rewrite Hl|].
    intros [|k] Hlt.
    + exists a, b, c. split; [done|]. simpl. by rewrite andb_true_r, andb_assoc.
    + destruct (Hk k) as (a' & b' & c' & Hf & Ha); [lia|].
      exists a', b', c'. split; [exact Hf|exact Ha].
Qed.

Section QTAFacts.
Context {F : Type} `{Scalar F}.
Variable cord2fram : @mat3 F → @mat3 F * @vec3 F.
Variable rota2quat : @mat3 F → @quat F.

Lemma view_frams_spec (n : nat) : ∀ xs : list F,
  length xs = n * 9 →
  ∃ frams, view_frams n xs = Ok frams ∧ length frams = n ∧
           ∀ k, k < n → frame_at xs k = frams !! k.
Proof.
  unfold frame_at. induction n as [|n IH]; intros xs Hlen.
  - destruct xs; [|done]. exists []. split_and!; [done|done|lia].
  - destruct xs as [|a [|b [|c [|d [|e [|f [|g [|h [|i rest]]]]]]]]];
      simpl in Hlen; try lia.
    destruct (IH rest) as (frams & Hv & Hl & Hk); [lia|].
    cbn [view_frams]. rewrite Hv. simpl. eexists. split_and!; [done|by rewrite <- Hl|].
    intros [|k] Hlt; [done|]. simpl. apply Hk. lia.
Qed.

Lemma view_frams_Err (n : nat) : ∀ (xs : list F) e,
  view_frams n xs = Err e → e = RuntimeError.
Proof.
  induction n as [|n IH]; intros xs e Hv.
  - destruct xs; [discriminate|]. by injection Hv as <-.
  - destruct xs as [|a [|b [|c [|d [|e' [|f [|g [|h [|i rest]]]]]]]]];
      try (by injection Hv as <-).
    cbn [view_frams] in Hv. apply bind_Err in Hv as [Hv|(? & _ & ?)]; [eauto|done].
Qed.

(** C5: in 'black-hole' mode the call returns, for every N and L and
    whatever the optional tensors and the state of the generator, the same
    arrays: N x L quaternions (1,0,0,0), N x L translations (0,0,0) and
    N x L x 7 angle pairs (1,0); the generator is left as it was.  For
    N = L = 1 these are one quaternion, one translation and 7 pairs. *)
Theorem init_qta_params_black_hole (N L : nat) :
  ∃ out : qta,
    (∀ cord_tns cmsk_tns tg,
       init_qta_params cord2fram rota2quat N L "black-hole" cord_tns cmsk_tns tg
       = Ok (out, tg)) ∧
    out = (replicate N (replicate L (s_one, s_zero, s_zero, s_zero)),
           replicate N (replicate L (s_zero, s_zero, s_zero)),
           replicate N (replicate L (replicate 7 (s_one, s_zero)))) ∧
    (∀ tg, init_qta_params cord2fram rota2quat 1 1 "black-hole" None None tg
           = Ok ([[(s_one, s_zero, s_zero, s_zero)]],
                 [[(s_zero, s_zero, s_zero)]],
                 [[[(s_one, s_zero); (s_one, s_zero); (s_one, s_zero);
                    (s_one, s_zero); (s_one, s_zero); (s_one, s_zero);
                    (s_one, s_zero)]]], tg)).
Proof.
  exists (init_black_hole N L). split_and!; [|done|]; intros; reflexivity.
Qed.

(** C10: in '3d-cord' mode a missing coordinate tensor raises
    [AttributeError], and so does a missing mask tensor once the
    coordinates have passed their shape test; [AssertionError], the
    shape-mismatch error, is raised only for a tensor that was supplied and
    has the wrong shape. *)
Theorem init_qta_params_missing_tensor (N L : nat)
    (cord_tns : option (tensor F)) (cmsk_tns : option (tensor bool))
    (tg : generator F) :
  let r := init_qta_params cord2fram rota2quat N L "3d-cord" cord_tns cmsk_tns tg in
  (cord_tns = None → r = Err AttributeError) ∧
  (∀ cord, cord_tns = Some cord → shape cord = [N; L; 3; 3] → cmsk_tns = None →
           r = Err AttributeError) ∧
  (r = Err AssertionError →
   (∃ cord, cord_tns = Some cord ∧ shape cord ≠ [N; L; 3; 3]) ∨
   (∃ cmsk, cmsk_tns = Some cmsk ∧ shape cmsk ≠ [N; L; 3])).
Proof.
  intros r. subst r. unfold init_qta_params.
  rewrite decide_False by done. rewrite decide_True by done.
  split_and!.
  - by intros ->.
  - intros cord -> Hs ->. by rewrite decide_True.
  - destruct cord_tns as [cord|]; [|done].
    case_decide as Hc; [|intros _; left; eauto].
    destruct cmsk_tns as [cmsk|]; [|done].
    case_decide as Hm; [|intros _; right; eauto].
    intros Herr. exfalso.
    destruct (view_frams (N * L) (data cord)) as [frams|e] eqn:Hv; simpl in Herr.
    + destruct (cord2fram_batch cord2fram frams). discriminate.
    + apply view_frams_Err in Hv. congruence.
Qed.

(** C4: in '3d-cord' mode, for tensors of the declared shapes, the call
    returns and decides residue by residue: a residue one of whose three
    atom-validity flags is false gets the quaternion (1,0,0,0) and the
    translation (0,0,0), whatever its coordinates are, and a residue whose
    three flags are true gets the quaternion and the translation derived
    from its coordinates.  Residues of one sample are decided
    independently of one another. *)
Theorem init_qta_params_3d_cord (N L : nat) (cord : tensor F) (cmsk : tensor bool)
    (tg : generator F) :
  shape cord = [N; L; 3; 3] → shape cmsk = [N; L; 3] →
  well_formed cord → well_formed cmsk →
  ∃ quat_tns trsl_tns angl_tns,
    init_qta_params cord2fram rota2quat N L "3d-cord" (Some cord) (Some cmsk) tg
    = Ok (quat_tns, trsl_tns, angl_tns, tg) ∧
    ∀ i j, i < N → j < L →
      ∃ fr a b c q t,
        frame_at (data cord) (i * L + j) = Some fr ∧
        flags_at (data cmsk) (i * L + j) = Some (a, b, c) ∧
        at2 quat_tns i j = Some q ∧ at2 trsl_tns i j = Some t ∧
        (a = true → b = true → c = true →
         q = rota2quat (cord2fram fr).1 ∧ t = (cord2fram fr).2) ∧
        (a = false ∨ b = false ∨ c = false →
         q = (s_one, s_zero, s_zero, s_zero) ∧ t = (s_zero, s_zero, s_zero)).
Proof.
  intros Hsc Hsm Hwc Hwm. unfold well_formed in *. rewrite Hsc in Hwc. rewrite Hsm in Hwm.
  assert (length (data cord) = N * L * 9) as Hlc by (rewrite Hwc; simpl; lia).
  assert (length (data cmsk) = N * L * 3) as Hlm by (rewrite Hwm; simpl; lia).
  unfold init_qta_params.
  rewrite decide_False by done. rewrite decide_True by done.
  rewrite decide_True by done. rewrite decide_True by done.
  destruct (view_frams_spec (N * L) (data cord) Hlc) as (frams & -> & Hfl & Hfk).
  destruct (all_dim2_spec (N * L) (data cmsk) Hlm) as [Hal Hak].
  cbn [mbind result_bind cord2fram_batch init_black_hole].
  eexists _, _, _. split; [reflexivity|].
  intros i j Hi Hj. set (k := i * L + j).
  assert (k < N * L) as Hk by (unfold k; nia).
  destruct (lookup_lt_is_Some_2 frams k) as [fr Hfr]; [lia|].
  destruct (Hak k Hk) as (a & b & c & Hflags & Hall).
  exists fr, a, b, c.
  eexists _, _. split_and!.
  - by rewrite Hfk.
  - done.
  - eapply where_resd_at2.
    + rewrite view_rows_at2 by done. exact Hall.
    + rewrite view_rows_at2 by done. rewrite !list_lookup_fmap. fold k.
      rewrite Hfr. reflexivity.
    + by apply full_at2.
  - eapply where_resd_at2.
    + rewrite view_rows_at2 by done. exact Hall.
    + rewrite view_rows_at2 by done. rewrite !list_lookup_fmap. fold k.
      rewrite Hfr. reflexivity.
    + by apply full_at2.
  - by intros -> -> ->.
  - intros [->| [->| ->]]; simpl; rewrite ?andb_false_r; done.
Qed.

End QTAFacts.

(** ** The theorems at concrete inputs *)

(** The end-to-end example of the masks: both occurrences of "AC" get the
    same mask with one position flagged, and "G" gets its one position
    flagged, since 0.5 rounds to 1. *)
Example get_mlm_masks_example :
  get_mlm_masks ["AC"; "AC"; "G"] (1 # 2) None example_rng
  = Ok ([0; 1; 0; 1; 1]%Z, Generator (entropy example_rng) 2).
Proof. vm_compute. reflexivity. Qed.

(** A count of zero: with probability 1/4 the one-residue sequence gets the
    zero vector. *)
Example get_mlm_masks_zero_count :
  get_mlm_masks ["G"] (1 # 4) None example_rng
  = Ok ([0]%Z, Generator (entropy example_rng) 0).
Proof. vm_compute. reflexivity. Qed.


Lemma get_mlm_masks_duplicates_witness :
  let aa_seqs := ["AC"; "AC"; "G"]%string in
  let out := [0; 1; 0; 1; 1]%Z in
  segment out aa_seqs 0 "AC" = segment out aa_seqs 1 "AC".
Proof.
  apply (get_mlm_masks_duplicates ["AC"; "AC"; "G"] (1 # 2) None example_rng
           (Generator (entropy example_rng) 2)).
  - vm_compute. reflexivity.
  - reflexivity.
  - reflexivity.
Defined.



Lemma get_mlm_masks_first_occurrence_only_witness :
  get_mlm_masks ["AC"; "AC"; "G"] (1 # 2) (Some [[1; 0]; [0; 1]; [1]]%Z) example_rng
  = get_mlm_masks ["AC"; "AC"; "G"] (1 # 2) (Some [[1; 0]; [0; 0]; [1]]%Z) example_rng.
Proof.
  apply get_mlm_masks_first_occurrence_only.
  intros [|[|[|i]]] s Hs Hidx; try reflexivity.
  injection Hs as <-. discriminate Hidx.
Defined.


(** The corruption of a 2 x 2 matrix whose random numbers are 0.85, 0.22,
    0.59 and 0.96: the first position keeps its token, the second becomes
    the mask token, the third is not masked, the fourth becomes a residue
    type. *)
Example apply_mlm_masks_example :
  ∃ g' tg',
    apply_mlm_masks (Tensor [2; 2] [5; 6; 7; 9]%Z) (Tensor [2; 2] [1; 1; 0; 1]%Z)
                    example_alphabet example_rng example_uniform
    = Ok (Tensor [2; 2] [5; 32; 7; 8]%Z, g', tg').
Proof. eexists _, _. vm_compute. reflexivity. Qed.

Lemma init_qta_params_3d_cord_witness :
  let cord2fram := example_cord2fram in
  let rota2quat := example_rota2quat in
  let N := 1 in
  let L := 2 in
  let cord := example_cord in
  let cmsk := example_cmsk in
  ∃ quat_tns trsl_tns angl_tns,
    init_qta_params cord2fram rota2quat N L "3d-cord" (Some cord) (Some cmsk)
                    example_normal
    = Ok (quat_tns, trsl_tns, angl_tns, example_normal) ∧
    ∀ i j, i < N → j < L →
      ∃ fr a b c q t,
        frame_at (data cord) (i * L + j) = Some fr ∧
        flags_at (data cmsk) (i * L + j) = Some (a, b, c) ∧
        at2 quat_tns i j = Some q ∧ at2 trsl_tns i j = Some t ∧
        (a = true → b = true → c = true →
         q = rota2quat (cord2fram fr).1 ∧ t = (cord2fram fr).2) ∧
        (a = false ∨ b = false ∨ c = false →
         q = (s_one, s_zero, s_zero, s_zero) ∧ t = (s_zero, s_zero, s_zero)).
Proof.
  apply init_qta_params_3d_cord; reflexivity.
Defined.

(** One sample that mixes a coordinate-derived residue and a canonical
    one: the second residue, whose CA flag is false, gets the canonical
    quaternion and translation. *)
Example init_qta_params_3d_cord_example :
  ∃ quat_tns trsl_tns angl_tns,
    init_qta_params example_cord2fram example_rota2quat 1 2 "3d-cord"
                    (Some example_cord) (Some example_cmsk) example_normal
    = Ok (quat_tns, trsl_tns, angl_tns, example_normal) ∧
    at2 quat_tns 0 0
    = Some (float_of_nat 1, float_of_nat 2, float_of_nat 3, float_of_nat 4) ∧
    at2 trsl_tns 0 0 = Some (float_of_nat 4, float_of_nat 5, float_of_nat 6) ∧
    at2 quat_tns 0 1
    = Some (PrimFloat.one, PrimFloat.zero, PrimFloat.zero, PrimFloat.zero) ∧
    at2 trsl_tns 0 1 = Some (PrimFloat.zero, PrimFloat.zero, PrimFloat.zero).
Proof. eexists _, _, _. vm_compute. split_and!; reflexivity. Qed.

Lemma init_qta_params_missing_tensor_witness :
  init_qta_params example_cord2fram example_rota2quat 1 2 "3d-cord"
                  None (Some example_cmsk) example_normal
  = Err AttributeError ∧
  init_qta_params example_cord2fram example_rota2quat 1 2 "3d-cord"
                  (Some example_cord) None example_normal
  = Err AttributeError.
Proof.
  split.
  - apply (init_qta_params_missing_tensor example_cord2fram example_rota2quat 1 2
             None (Some example_cmsk) example_normal).
    reflexivity.
  - apply (proj1 (proj2 (init_qta_params_missing_tensor
             example_cord2fram example_rota2quat 1 2
             (Some example_cord) None example_normal)) example_cord);
      reflexivity.
Defined.

(** A tensor of the wrong shape is what raises the shape-mismatch error. *)
Example init_qta_params_wrong_shape :
  init_qta_params example_cord2fram example_rota2quat 2 2 "3d-cord"
                  (Some example_cord) (Some example_cmsk) example_normal
  = Err AssertionError.
Proof. reflexivity. Qed.

(** Any other mode is refused. *)
Example init_qta_params_unrecognized :
  init_qta_params example_cord2fram example_rota2quat 1 1 "identity"
                  None None example_normal
  = Err ValueError.
Proof. reflexivity. Qed.

(** * Further properties of the code *)

(** ** Entries of a mask *)

Lemma index_put_lookup_in (idxs : list nat) : ∀ (t t' : list Z) x j,
  Torch.index_put t idxs x = Ok t' → j ∈ idxs → t' !! j = Some x.
Proof.
  induction idxs as [|i idxs IH]; intros t t' x j Hput Hj.
  - by apply elem_of_nil in Hj.
  - cbn [Torch.index_put] in Hput. case_decide as Hi; [|discriminate].
    destruct (decide (j ∈ idxs)) as [Hin|Hnin]; [by eapply IH|].
    apply elem_of_cons in Hj as [->|?]; [|done].
    clear IH Hnin. revert t t' Hput Hi.
    assert (∀ (l : list nat) (t t' : list Z),
      Torch.index_put t l x = Ok t' → t !! i = Some x → t' !! i = Some x) as Hkeep.
    { induction l as [|a l IHl]; intros t t' Hput Ht.
      - by injection Hput as <-.
      - cbn [Torch.index_put] in Hput. case_decide; [|discriminate].
        eapply IHl; [exact Hput|].
        destruct (decide (a = i)) as [->|Hne].
        + by rewrite list_lookup_insert_eq.
        + by rewrite list_lookup_insert_ne. }
    intros t t' Hput Hi. eapply Hkeep; [exact Hput|].
    by rewrite list_lookup_insert_eq.
Qed.

Lemma index_put_lookup_notin (idxs : list nat) : ∀ (t t' : list Z) x j,
  Torch.index_put t idxs x = Ok t' → j ∉ idxs → t' !! j = t !! j.
Proof.
  induction idxs as [|i idxs IH]; intros t t' x j Hput Hj.
  - by injection Hput as <-.
  - cbn [Torch.index_put] in Hput. case_decide as Hi; [|discriminate].
    apply not_elem_of_cons in Hj as [Hne Hj].
    rewrite (IH _ _ _ _ Hput Hj). by rewrite list_lookup_insert_ne.
Qed.

Lemma nonzero_from_elem (v : list Z) : ∀ i j,
  j ∈ Torch.nonzero_from i v ↔ ∃ x, i ≤ j ∧ v !! (j - i) = Some x ∧ x ≠ 0%Z.
Proof.
  induction v as [|y v IH]; intros i j; cbn [Torch.nonzero_from].
  - split; [by intros ?%elem_of_nil|]. by intros (x & _ & ? & _).
  - assert ((∃ x, S i ≤ j ∧ v !! (j - S i) = Some x ∧ x ≠ 0%Z) ↔
            (∃ x, i ≤ j ∧ j ≠ i ∧ (y :: v) !! (j - i) = Some x ∧ x ≠ 0%Z)) as Hshift.
    { split; intros (x & Hle & H); exists x.
      - destruct H as [Hx Hne]. split_and!; [lia|lia| |done].
        replace (j - i) with (S (j - S i)) by lia. done.
      - destruct H as (Hji & Hx & Hne). split_and!; [lia| |done].
        replace (j - i) with (S (j - S i)) in Hx by lia. done. }
    case_decide as Hy.
    + rewrite IH, Hshift. split.
      * intros (x & ? & ? & ? & ?). eauto.
      * intros (x & Hle & Hx & Hne). exists x. split_and!; try done.
        intros ->. rewrite Nat.sub_diag in Hx. simpl in Hx. congruence.
    + rewrite elem_of_cons, IH, Hshift. split.
      * intros [->|(x & ? & ? & ? & ?)]; [|eauto].
        exists y. rewrite Nat.sub_diag. eauto.
      * intros (x & Hle & Hx & Hne).
        destruct (decide (j = i)) as [->|Hji]; [by left|].
        right. exists x. eauto.
Qed.

Lemma nonzero_elem (v : list Z) j :
  j ∈ Torch.nonzero v ↔ ∃ x, v !! j = Some x ∧ x ≠ 0%Z.
Proof.
  unfold Torch.nonzero. rewrite nonzero_from_elem. rewrite Nat.sub_0_r.
  split; [intros (x & _ & ?); eauto | intros (x & ?); exists x; split; [lia|done]].
Qed.

(** The candidates are the eligible positions. *)
Lemma idxs_resd_cand_of_eligible s i mask_vecs cand j :
  idxs_resd_cand_of s i mask_vecs = Ok cand → j ∈ cand ↔ eligible s i mask_vecs j.
Proof.
  unfold idxs_resd_cand_of, eligible. destruct mask_vecs as [mvs|].
  - destruct (mvs !! i) as [v|]; [|discriminate]. intros [= <-].
    rewrite nonzero_elem. split.
    + intros (x & ? & ?). eauto.
    + intros (v' & x & [= <-] & ? & ?). eauto.
  - intros [= <-]. rewrite elem_of_seq. lia.
Qed.

(** The entries of a returned mask: 1 at the drawn positions, which are
    candidates, and 0 elsewhere; when the count is the number of candidates
    every candidate is drawn. *)
Lemma gen_mask_entries s i p mask_vecs g v g' :
  gen_mask s i p mask_vecs g = Ok (v, g') →
  ∃ cand, idxs_resd_cand_of s i mask_vecs = Ok cand ∧
    length v = String.length s ∧
    (∀ j x, v !! j = Some x → x = 0%Z ∨ x = 1%Z) ∧
    (∀ j, v !! j = Some 1%Z → j ∈ cand) ∧
    (n_resds_mask_of (length cand) p = Z.of_nat (length cand) →
     ∀ j, j ∈ cand → v !! j = Some 1%Z).
Proof.
  intros Hgen. unfold gen_mask in Hgen.
  apply bind_Ok in Hgen as (cand & Hcand & Hgen). exists cand. split; [done|].
  apply bind_Ok in Hgen as ([res g1] & Hs & Hgen).
  apply bind_Ok in Hgen as (t' & Hput & Hgen). injection Hgen as -> ->.
  apply sample_Ok in Hs as (Hk & Hlen & rest & Hperm).
  pose proof (index_put_Ok _ _ _ _ Hput) as [Hlen' Hin].
  rewrite zeros_length in Hlen', Hin.
  assert (∀ j, j ∉ res → v !! j = Some 0%Z ∨ v !! j = None) as Hzero.
  { intros j Hj. rewrite (index_put_lookup_notin _ _ _ _ _ Hput Hj).
    destruct (decide (j < String.length s)).
    - left. by apply zeros_lookup.
    - right. apply lookup_ge_None. rewrite zeros_length. lia. }
  split_and!; [done| | |].
  - intros j x Hx. destruct (decide (j ∈ res)) as [Hj|Hj].
    + rewrite (index_put_lookup_in _ _ _ _ _ Hput Hj) in Hx. right. congruence.
    + destruct (Hzero j Hj) as [H0|H0]; rewrite H0 in Hx; [left; congruence|done].
  - intros j Hx. destruct (decide (j ∈ res)) as [Hj|Hj].
    + rewrite <- Hperm. apply elem_of_app. by left.
    + destruct (Hzero j Hj) as [H0|H0]; rewrite H0 in Hx; done.
  - intros Hall j Hj. eapply index_put_lookup_in; [exact Hput|].
    assert (rest = []) as ->.
    { apply Permutation_length in Hperm. rewrite length_app in Hperm.
      apply nil_length_inv. lia. }
    rewrite app_nil_r in Hperm. by rewrite Hperm.
Qed.

(** ** The parts of the output *)

(** The part of the output that belongs to an occurrence is a mask the
    body of the loop returned at the first occurrence of its sequence. *)
Lemma get_mlm_masks_segment aa_seqs p mask_vecs g out g' i s :
  get_mlm_masks aa_seqs p mask_vecs g = Ok (out, g') → aa_seqs !! i = Some s →
  ∃ g1 g2, gen_mask s (index_of s aa_seqs) p mask_vecs g1
           = Ok (segment out aa_seqs i s, g2).
Proof.
  intros Hcall Hs.
  apply (get_mlm_masks_Ok
           (λ s i v, ∃ g1 g2, gen_mask s i p mask_vecs g1 = Ok (v, g2))) in Hcall
    as (d & vecs & Hd & Hall & ->); [|by eauto].
  assert (Forall2 (λ s v, length v = String.length s) aa_seqs vecs) as Hlens.
  { eapply Forall2_impl; [exact Hall|]. intros s' v' Hs'.
    apply Hd in Hs' as (g1 & g2 & (? & _ & Hlen & _)%gen_mask_Ok). done. }
  destruct (Forall2_lookup_l _ _ _ _ _ Hall Hs) as (v & Hv & Hdv).
  rewrite (segment_concat _ _ Hlens i s v) by done. by apply Hd.
Qed.

Lemma concat_lengths (aa_seqs : list string) (vecs : list (list Z)) :
  Forall2 (λ s v, length v = String.length s) aa_seqs vecs →
  length (concat vecs) = sum_list (String.length <$> aa_seqs).
Proof.
  induction 1 as [|s v aa_seqs vecs Hlen _ IH]; [done|].
  simpl. by rewrite length_app, Hlen, IH.
Qed.

(** X1: a returned mask vector has one entry per residue of the input, in
    total the sum of the lengths of the sequences, and every entry is 0 or
    1. *)
Theorem get_mlm_masks_shape (aa_seqs : list string) (p : Q)
    (mask_vecs : option (list (list Z))) (g g' : PyRandom.rng) (out : list Z) :
  get_mlm_masks aa_seqs p mask_vecs g = Ok (out, g') →
  length out = sum_list (String.length <$> aa_seqs) ∧
  Forall (λ x, x = 0%Z ∨ x = 1%Z) out.
Proof.
  intros Hcall.
  apply (get_mlm_masks_Ok
           (λ s _ v, length v = String.length s ∧ Forall (λ x, x = 0%Z ∨ x = 1%Z) v))
    in Hcall as (d & vecs & Hd & Hall & ->).
  2:{ intros s i g0 v g1 (cand & _ & Hlen & H01 & _)%gen_mask_entries.
      split; [done|]. apply Forall_lookup. eauto. }
  split.
  - apply concat_lengths. eapply Forall2_impl; [exact Hall|].
    intros s v Hv. by apply Hd in Hv as [? _].
  - apply Forall_concat. apply Forall_forall. intros v Hv.
    apply list_elem_of_lookup in Hv as [k Hk].
    destruct (Forall2_lookup_r _ _ _ _ _ Hall Hk) as (s & _ & Hdv).
    by apply Hd in Hdv as [_ ?].
Qed.

(** X2: only eligible positions are masked: a 1 in the part of an
    occurrence stands at a position that the indicators given at the first
    occurrence of the sequence allow (at any position of the sequence when
    no indicators are given). *)
Theorem get_mlm_masks_only_eligible (aa_seqs : list string) (p : Q)
    (mask_vecs : option (list (list Z))) (g g' : PyRandom.rng) (out : list Z) :
  get_mlm_masks aa_seqs p mask_vecs g = Ok (out, g') →
  ∀ i s j, aa_seqs !! i = Some s →
    segment out aa_seqs i s !! j = Some 1%Z →
    eligible s (index_of s aa_seqs) mask_vecs j.
Proof.
  intros Hcall i s j Hs Hj.
  destruct (get_mlm_masks_segment _ _ _ _ _ _ i s Hcall Hs) as (g1 & g2 & Hgen).
  apply gen_mask_entries in Hgen as (cand & Hc & _ & _ & Hones & _).
  apply (idxs_resd_cand_of_eligible _ _ _ _ j Hc). auto.
Qed.

Lemma n_resds_mask_of_one (n : nat) (p : Q) :
  (p == 1)%Q → n_resds_mask_of n p = Z.of_nat n.
Proof.
  rewrite n_resds_mask_of_unfold. destruct p as [pn pd]. unfold Qeq. simpl.
  intros Hp. rewrite Z.mul_1_r in Hp. subst pn.
  symmetry. apply Z.quot_unique with (Zpos pd); lia.
Qed.

Lemma n_resds_mask_of_zero (p : Q) : n_resds_mask_of 0 p = 0%Z.
Proof.
  rewrite n_resds_mask_of_unfold. destruct p as [pn pd]. simpl.
  apply Z.quot_small. lia.
Qed.

(** X3: with mask probability 1 exactly the eligible positions are masked:
    in a returned mask vector the part of an occurrence has a 1 at a
    position if and only if the position is eligible. *)
Theorem get_mlm_masks_prob_one (aa_seqs : list string) (p : Q)
    (mask_vecs : option (list (list Z))) (g g' : PyRandom.rng) (out : list Z) :
  (p == 1)%Q →
  get_mlm_masks aa_seqs p mask_vecs g = Ok (out, g') →
  ∀ i s j, aa_seqs !! i = Some s →
    (segment out aa_seqs i s !! j = Some 1%Z ↔
     eligible s (index_of s aa_seqs) mask_vecs j).
Proof.
  intros Hp Hcall i s j Hs.
  destruct (get_mlm_masks_segment _ _ _ _ _ _ i s Hcall Hs) as (g1 & g2 & Hgen).
  apply gen_mask_entries in Hgen as (cand & Hc & _ & _ & Hones & Hall).
  rewrite <- (idxs_resd_cand_of_eligible _ _ _ _ j Hc). split; [auto|].
  apply Hall. by apply n_resds_mask_of_one.
Qed.

(** X4: a sequence without eligible positions is never masked, whatever the
    mask probability: its count is int(0 * p + 0.5) = 0, which the sampling
    step accepts, and its part of a returned mask vector is all zeros. *)
Theorem get_mlm_masks_no_candidates (aa_seqs : list string) (p : Q)
    (mask_vecs : option (list (list Z))) (g g' : PyRandom.rng) (out : list Z)
    (i : nat) (s : string) :
  get_mlm_masks aa_seqs p mask_vecs g = Ok (out, g') →
  aa_seqs !! i = Some s →
  (∀ j, ¬ eligible s (index_of s aa_seqs) mask_vecs j) →
  n_resds_mask_of 0 p = 0%Z ∧
  segment out aa_seqs i s = replicate (String.length s) 0%Z.
Proof.
  intros Hcall Hs Hnone. split; [apply n_resds_mask_of_zero|].
  destruct (get_mlm_masks_segment _ _ _ _ _ _ i s Hcall Hs) as (g1 & g2 & Hgen).
  apply gen_mask_entries in Hgen as (cand & Hc & Hlen & H01 & Hones & _).
  apply list_eq_same_length with (String.length s);
    [by rewrite length_replicate|done|].
  intros j x y Hj Hx Hy. apply lookup_replicate in Hy as [-> _].
  destruct (H01 j x Hx) as [->| ->]; [done|].
  exfalso. apply (Hnone j).
  apply (idxs_resd_cand_of_eligible _ _ _ _ j Hc). auto.
Qed.

(** ** The errors of [get_mlm_masks] *)

Lemma gen_mask_Err_kind s i p mask_vecs g e :
  gen_mask s i p mask_vecs g = Err e → e = ValueError ∨ e = IndexError.
Proof.
  unfold gen_mask. intros [Hc|(cand & _ & Hgen)]%bind_Err.
  - right. unfold idxs_resd_cand_of in Hc. destruct mask_vecs as [mvs|]; [|done].
    destruct (mvs !! i); congruence.
  - apply bind_Err in Hgen as [Hs|([res g1] & _ & Hgen)].
    + left. by apply sample_Err in Hs as [? _].
    + right. apply bind_Err in Hgen as [Hput|(t' & _ & ?)]; [|done].
      by apply index_put_Err in Hput.
Qed.

Lemma mlm_loop_Err_kind p mask_vecs : ∀ rest i d g e,
  mlm_loop rest i p mask_vecs d g = Err e → e = ValueError ∨ e = IndexError.
Proof.
  induction rest as [|a rest IH]; intros i d g e; [done|].
  cbn [mlm_loop]. destruct (d !! a); [apply IH|].
  intros [Hg|([v g1] & _ & Hloop)]%bind_Err; [by eapply gen_mask_Err_kind|by eapply IH].
Qed.

Lemma mlm_loop_dict p mask_vecs aa_seqs g d g' :
  mlm_loop aa_seqs 0 p mask_vecs ∅ g = Ok (d, g') → dict_of aa_seqs d.
Proof.
  intros Hloop.
  by apply (mlm_loop_inv p mask_vecs (λ _ _ _, True) ltac:(done) aa_seqs [] ∅ g d g'
              dict_of_empty ltac:(done)) in Hloop as [? _].
Qed.

(** X5: the call raises [RuntimeError] exactly for the empty list of
    sequences, where nothing is there to concatenate. *)
Theorem get_mlm_masks_empty_input (aa_seqs : list string) (p : Q)
    (mask_vecs : option (list (list Z))) (g : PyRandom.rng) :
  get_mlm_masks aa_seqs p mask_vecs g = Err RuntimeError ↔ aa_seqs = [].
Proof.
  split; [|by intros ->].
  unfold get_mlm_masks. intros [Hloop|([d g1] & _ & Hrest)]%bind_Err.
  - apply mlm_loop_Err_kind in Hloop as [?|?]; discriminate.
  - apply bind_Err in Hrest as [Hl|(vecs & Hl & Hrest)].
    + by apply lookup_all_Err in Hl.
    + apply lookup_all_Ok in Hl.
      apply bind_Err in Hrest as [Hc|(? & _ & ?)]; [|done].
      unfold Torch.cat in Hc. destruct vecs; [|done].
      by apply Forall2_nil_inv_r in Hl.
Qed.

(** X6: reading the dictionary back never misses: whatever the input, the
    call does not raise [KeyError]. *)
Theorem get_mlm_masks_no_KeyError (aa_seqs : list string) (p : Q)
    (mask_vecs : option (list (list Z))) (g : PyRandom.rng) :
  get_mlm_masks aa_seqs p mask_vecs g ≠ Err KeyError.
Proof.
  unfold get_mlm_masks. intros [Hloop|([d g1] & Hloop & Hrest)]%bind_Err.
  - apply mlm_loop_Err_kind in Hloop as [?|?]; discriminate.
  - apply mlm_loop_dict in Hloop.
    destruct (lookup_all_is_ok d aa_seqs) as [vecs Hvecs]; [intros s; apply Hloop|].
    rewrite Hvecs in Hrest. simpl in Hrest.
    apply bind_Err in Hrest as [Hc|(? & _ & ?)]; [|done].
    unfold Torch.cat in Hc. by destruct vecs.
Qed.



(** ** Indicators that allow every position *)

Lemma nonzero_from_all (v : list Z) : ∀ i,
  Forall (λ x, x ≠ 0%Z) v → Torch.nonzero_from i v = seq i (length v).
Proof.
  induction v as [|x v IH]; intros i Hall; [done|].
  apply Forall_cons in Hall as [Hx Hall]. cbn [Torch.nonzero_from length seq].
  rewrite decide_False by done. f_equal. by apply IH.
Qed.

Lemma mlm_loop_all_allowed p (mvs : list (list Z)) : ∀ rest i d g,
  (∀ k s, rest !! k = Some s →
     ∃ v, mvs !! (i + k) = Some v ∧ length v = String.length s ∧
          Forall (λ x, x ≠ 0%Z) v) →
  mlm_loop rest i p (Some mvs) d g = mlm_loop rest i p None d g.
Proof.
  induction rest as [|a rest IH]; intros i d g Hall; [done|].
  cbn [mlm_loop].
  assert (∀ k s, rest !! k = Some s →
     ∃ v, mvs !! (S i + k) = Some v ∧ length v = String.length s ∧
          Forall (λ x, x ≠ 0%Z) v) as Hall'.
  { intros k s Hk. destruct (Hall (S k) s Hk) as (v & Hv & ?).
    exists v. split; [|done]. rewrite <- Hv. f_equal. lia. }
  destruct (d !! a); [by apply IH|].
  destruct (Hall 0 a eq_refl) as (v & Hv & Hlen & Hnz).
  rewrite Nat.add_0_r in Hv.
  assert (gen_mask a i p (Some mvs) g = gen_mask a i p None g) as ->.
  { unfold gen_mask, idxs_resd_cand_of. rewrite Hv. unfold Torch.nonzero.
    by rewrite nonzero_from_all, Hlen. }
  destruct (gen_mask a i p None g) as [[m g1]|e]; [|done]. simpl. by apply IH.
Qed.

(** X8: indicators that allow every position of every sequence are the
    same as no indicators: the two calls give the same result. *)
Theorem get_mlm_masks_all_allowed (aa_seqs : list string) (p : Q)
    (mvs : list (list Z)) (g : PyRandom.rng) :
  Forall2 (λ s v, length v = String.length s ∧ Forall (λ x, x ≠ 0%Z) v) aa_seqs mvs →
  get_mlm_masks aa_seqs p (Some mvs) g = get_mlm_masks aa_seqs p None g.
Proof.
  intros Hall. unfold get_mlm_masks.
  rewrite (mlm_loop_all_allowed p mvs aa_seqs 0 ∅ g); [done|].
  intros k s Hk. destruct (Forall2_lookup_l _ _ _ _ _ Hall Hk) as (v & Hv & ? & ?).
  by exists v.
Qed.

(** ** Longer inputs *)

Lemma mlm_loop_app p mask_vecs : ∀ l1 l2 i d g,
  mlm_loop (l1 ++ l2) i p mask_vecs d g
  = '(d1, g1) ← mlm_loop l1 i p mask_vecs d g;
    mlm_loop l2 (i + length l1) p mask_vecs d1 g1.
Proof.
  induction l1 as [|a l1 IH]; intros l2 i d g.
  - simpl. by rewrite Nat.add_0_r.
  - cbn [app mlm_loop length]. replace (i + S (length l1)) with (S i + length l1) by lia.
    destruct (d !! a); [apply IH|].
    destruct (gen_mask a i p mask_vecs g) as [[v g1]|e]; [|done]. simpl. apply IH.
Qed.

(** The loop only adds sequences to the dictionary. *)
Lemma mlm_loop_extends p mask_vecs : ∀ rest i d g d' g',
  mlm_loop rest i p mask_vecs d g = Ok (d', g') →
  ∀ s v, d !! s = Some v → d' !! s = Some v.
Proof.
  induction rest as [|a rest IH]; intros i d g d' g' Hloop s v Hs.
  - by injection Hloop as <- <-.
  - cbn [mlm_loop] in Hloop. destruct (d !! a) eqn:Ha; [by eapply IH|].
    apply bind_Ok in Hloop as ([m g1] & _ & Hloop).
    eapply IH; [exact Hloop|]. rewrite lookup_insert_ne; [done|]. congruence.
Qed.

Lemma lookup_all_app d (l1 l2 : list string) :
  lookup_all d (l1 ++ l2)
  = vs1 ← lookup_all d l1; vs2 ← lookup_all d l2; Ok (vs1 ++ vs2).
Proof.
  induction l1 as [|x l1 IH]; simpl.
  - by destruct (lookup_all d l2).
  - destruct (d !! x); [|done]. rewrite IH.
    destruct (lookup_all d l1); [|done]. simpl. by destruct (lookup_all d l2).
Qed.

Lemma lookup_all_agree (d d' : gmap string (list Z)) (l : list string) vecs :
  lookup_all d l = Ok vecs → (∀ s v, d !! s = Some v → d' !! s = Some v) →
  lookup_all d' l = Ok vecs.
Proof.
  revert vecs. induction l as [|x l IH]; intros vecs Hl Hext; [done|].
  simpl in *. destruct (d !! x) as [v|] eqn:Hx; [|done].
  rewrite (Hext _ _ Hx). apply bind_Ok in Hl as (vs & Hvs & [= <-]).
  by rewrite (IH vs).
Qed.

Lemma mlm_loop_lengths p mask_vecs aa_seqs g d g' :
  mlm_loop aa_seqs 0 p mask_vecs ∅ g = Ok (d, g') →
  ∀ s v, d !! s = Some v → length v = String.length s.
Proof.
  intros Hloop s v Hs.
  destruct (mlm_loop_inv p mask_vecs (λ s _ v, length v = String.length s)
              ltac:(by intros ????? (? & _ & ? & _)%gen_mask_Ok)
              aa_seqs [] ∅ g d g' dict_of_empty ltac:(done) Hloop) as [_ Hlen].
  by eapply Hlen.
Qed.

Lemma lookup_all_lengths (d : gmap string (list Z)) (l : list string) vecs :
  (∀ s v, d !! s = Some v → length v = String.length s) →
  lookup_all d l = Ok vecs →
  Forall2 (λ s v, length v = String.length s) l vecs.
Proof.
  intros Hlen Hl%lookup_all_Ok. eapply Forall2_impl; [exact Hl|]. eauto.
Qed.

Lemma cat_Ok (vecs : list (list Z)) out :
  Torch.cat vecs = Ok out → out = concat vecs ∧ vecs ≠ [].
Proof. unfold Torch.cat. destruct vecs; [done|]. by intros [= <-]. Qed.

Lemma cat_app (vecs more : list (list Z)) :
  vecs ≠ [] → Torch.cat (vecs ++ more) = Ok (concat vecs ++ concat more).
Proof.
  intros Hne. unfold Torch.cat. rewrite concat_app. by destruct vecs.
Qed.

(** X9: appending a sequence that the input already holds appends a copy of
    its mask and changes nothing else: the masks of the other sequences
    and the state of the generator are the same. *)
Theorem get_mlm_masks_append_duplicate (aa_seqs : list string) (p : Q)
    (mask_vecs : option (list (list Z))) (g g' : PyRandom.rng) (out : list Z)
    (s : string) :
  s ∈ aa_seqs →
  get_mlm_masks aa_seqs p mask_vecs g = Ok (out, g') →
  get_mlm_masks (aa_seqs ++ [s]) p mask_vecs g
  = Ok (out ++ segment out aa_seqs (index_of s aa_seqs) s, g').
Proof.
  intros Hin Hcall. unfold get_mlm_masks in *.
  apply bind_Ok in Hcall as ([d g1] & Hloop & Hcall).
  apply bind_Ok in Hcall as (vecs & Hvecs & Hcall).
  apply bind_Ok in Hcall as (mv & Hcat & Hcall). injection Hcall as -> ->.
  apply cat_Ok in Hcat as [-> Hne].
  pose proof (mlm_loop_dict _ _ _ _ _ _ Hloop) as Hd.
  pose proof (lookup_all_lengths d aa_seqs vecs (mlm_loop_lengths _ _ _ _ _ _ Hloop) Hvecs)
    as Hlens.
  destruct (proj2 (Hd s) Hin) as [v Hv].
  rewrite mlm_loop_app, Hloop. cbn [mbind result_bind mlm_loop]. rewrite Hv.
  cbn [mbind result_bind]. rewrite lookup_all_app, Hvecs.
  cbn [mbind result_bind lookup_all]. rewrite Hv. cbn [mbind result_bind].
  rewrite cat_app by done. cbn [mbind result_bind concat]. rewrite app_nil_r.
  do 3 f_equal.
  pose proof (index_of_lookup s aa_seqs Hin) as Hidx.
  destruct (Forall2_lookup_l _ _ _ _ _ (lookup_all_Ok _ _ _ Hvecs) Hidx)
    as (v' & Hv' & Hdv').
  rewrite (segment_concat _ _ Hlens _ s v' Hidx Hv'). congruence.
Qed.

(** X10: the masks of a list of sequences stay as they are when further
    sequences follow: the mask vector of the longer input starts with the
    mask vector of the shorter one, followed by one entry per residue of
    the further sequences. *)
Theorem get_mlm_masks_prefix (aa_seqs more : list string) (p : Q)
    (mask_vecs : option (list (list Z))) (g g1 g2 : PyRandom.rng)
    (out out' : list Z) :
  get_mlm_masks aa_seqs p mask_vecs g = Ok (out, g1) →
  get_mlm_masks (aa_seqs ++ more) p mask_vecs g = Ok (out', g2) →
  ∃ tail, out' = out ++ tail ∧ length tail = sum_list (String.length <$> more).
Proof.
  intros Hcall Hcall'. unfold get_mlm_masks in *.
  apply bind_Ok in Hcall as ([d ga] & Hloop & Hcall).
  apply bind_Ok in Hcall as (vecs & Hvecs & Hcall).
  apply bind_Ok in Hcall as (mv & Hcat & Hcall). injection Hcall as -> ->.
  apply cat_Ok in Hcat as [-> Hne].
  apply bind_Ok in Hcall' as ([d' gb] & Hloop' & Hcall').
  apply bind_Ok in Hcall' as (vecs' & Hvecs' & Hcall').
  apply bind_Ok in Hcall' as (mv' & Hcat' & Hcall'). injection Hcall' as -> ->.
  pose proof (mlm_loop_lengths _ _ _ _ _ _ Hloop') as Hlen'.
  rewrite mlm_loop_app, Hloop in Hloop'. cbn [mbind result_bind] in Hloop'.
  pose proof (mlm_loop_extends _ _ _ _ _ _ _ _ Hloop') as Hext.
  rewrite lookup_all_app, (lookup_all_agree d d' aa_seqs vecs Hvecs Hext) in Hvecs'.
  cbn [mbind result_bind] in Hvecs'.
  apply bind_Ok in Hvecs' as (vecs2 & Hvecs2 & [= <-]).
  rewrite cat_app in Hcat' by done. injection Hcat' as <-.
  exists (concat vecs2). split; [done|].
  apply concat_lengths. by eapply lookup_all_lengths.
Qed.

(** ** The corruption as a whole *)

Lemma choices_cursor {A} (population : list A) (n : nat) : ∀ (g g' : PyRandom.rng) toks,
  PyRandom.choices population n g = Ok (toks, g') →
  g' = Generator (entropy g) (cursor g + n).
Proof.
  induction n as [|n IH]; intros g g' toks; cbn [PyRandom.choices].
  - intros [= _ <-]. destruct g. simpl. f_equal. lia.
  - unfold PyRandom.randbelow, draw.
    destruct (population !! _); [|done].
    intros ([rest g2] & Hrest & [= _ <-])%bind_Ok.
    apply IH in Hrest as ->. simpl. f_equal. lia.
Qed.

(** What the call returns for matrices of the same size: the states of the
    two generators after one draw per position, and at every position the
    token chosen by the two tests. *)
Lemma apply_mlm_masks_run (tokn_mat_orig mask_mat : tensor Z) (alph : alphabet)
    (g : PyRandom.rng) (tg : generator Q) (N L : nat) :
  shape tokn_mat_orig = [N; L] → shape mask_mat = [N; L] →
  well_formed tokn_mat_orig → well_formed mask_mat →
  ∃ out,
    apply_mlm_masks tokn_mat_orig mask_mat alph g tg
    = Ok (out, Generator (entropy g) (cursor g + N * L),
          Generator (entropy tg) (cursor tg + N * L)) ∧
    shape out = [N; L] ∧ length (data out) = N * L ∧
    ∀ k t m, data tokn_mat_orig !! k = Some t → data mask_mat !! k = Some m →
      ∃ tok, RESD_NAMES_1C !! (peek g k mod length RESD_NAMES_1C) = Some tok ∧
        data out !! k
        = Some (if bool_decide (m ≠ 0%Z) && Qltb (peek tg k) thr_pri then mask_idx alph
                else if bool_decide (m ≠ 0%Z) && Qltb thr_sec (peek tg k)
                     then get_idx alph tok else t).
Proof.
  intros Hst Hsm Hwt Hwm. unfold well_formed in *. rewrite Hst in Hwt. rewrite Hsm in Hwm.
  assert (numel [N; L] = N * L) as Hnumel by (simpl; lia). rewrite Hnumel in Hwt, Hwm.
  unfold apply_mlm_masks. rewrite Hst.
  destruct (choices_spec RESD_NAMES_1C (N * L) g) as (toks & g' & Hch & Htl & Htk); [done|].
  rewrite Hch. apply choices_cursor in Hch as ->.
  cbn [mbind result_bind].
  unfold Torch.rand. rewrite Hnumel.
  destruct (draws_spec (N * L) tg) as (Hpl & Hpg & Hpk).
  destruct (draws (N * L) tg) as [probs tg']. cbn [fst snd] in Hpl, Hpg, Hpk. subst tg'.
  unfold Torch.mul_bool, Torch.of_list_view.
  rewrite !map2_Ok by solve_shape. cbn [mbind result_bind].
  rewrite decide_True by (by rewrite length_fmap, Htl). cbn [mbind result_bind].
  rewrite (where_Ok _ _ tokn_mat_orig) by solve_shape. cbn [mbind result_bind].
  rewrite where_Ok by solve_shape. cbn [mbind result_bind].
  eexists. split; [reflexivity|].
  cbn [shape data Torch.map Torch.to_bool Torch.lt Torch.gt Torch.scaled_ones_like].
  split; [done|]. split.
  { rewrite !length_zip_with, !length_fmap, !length_zip_with, !length_fmap. lia. }
  intros k t m Ht Hm.
  assert (k < N * L) as Hk by (apply lookup_lt_Some in Ht; lia).
  assert (peek g k mod length RESD_NAMES_1C < length RESD_NAMES_1C) as Hlt.
  { apply Nat.mod_upper_bound. done. }
  destruct (lookup_lt_is_Some_2 _ _ Hlt) as [tok Htok].
  exists tok. split; [done|].
  rewrite !lookup_zip_with, !list_lookup_fmap, !lookup_zip_with,
    !list_lookup_fmap, Hm, Ht, (Hpk k Hk), (Htk k Hk), Htok.
  cbn [fmap option_fmap option_map mbind option_bind]. f_equal.
  destruct (Qltb (peek tg k) thr_pri), (Qltb thr_sec (peek tg k));
    rewrite ?Z.mul_1_r, ?Z.mul_0_r; repeat case_bool_decide; simpl; congruence.
Qed.

(** X11: a mask matrix of zeros changes nothing: the returned matrix is
    the token matrix that was passed in. *)
Theorem apply_mlm_masks_zero_mask (tokn_mat_orig mask_mat : tensor Z) (alph : alphabet)
    (g : PyRandom.rng) (tg : generator Q) (N L : nat) :
  shape tokn_mat_orig = [N; L] → shape mask_mat = [N; L] →
  well_formed tokn_mat_orig → well_formed mask_mat →
  Forall (λ m, m = 0%Z) (data mask_mat) →
  ∃ g' tg', apply_mlm_masks tokn_mat_orig mask_mat alph g tg
            = Ok (tokn_mat_orig, g', tg').
Proof.
  intros Hst Hsm Hwt Hwm Hzero.
  destruct (apply_mlm_masks_run tokn_mat_orig mask_mat alph g tg N L)
    as (out & Hcall & Hso & Hlo & Hk); [done..|].
  eexists _, _. rewrite Hcall. do 3 f_equal.
  unfold well_formed in *. rewrite Hst in Hwt. rewrite Hsm in Hwm.
  assert (numel [N; L] = N * L) as Hnumel by (simpl; lia). rewrite Hnumel in Hwt, Hwm.
  destruct out as [so xs], tokn_mat_orig as [st ts]. simpl in *. subst so st. f_equal.
  apply list_eq_same_length with (N * L); [done..|].
  intros k x y Hlt Hx Hy.
  destruct (lookup_lt_is_Some_2 (data mask_mat) k) as [m Hm]; [lia|].
  destruct (Hk k y m Hy Hm) as (tok & _ & Hout).
  rewrite Forall_lookup in Hzero. rewrite (Hzero k m Hm) in Hout.
  rewrite bool_decide_false in Hout by (intros ?; done). simpl in Hout. congruence.
Qed.

(** X12: the corruption stays inside the vocabulary it was given: every
    token of the returned matrix is the mask token, the index of one of
    the 20 standard residue types, or the original token at its
    position. *)
Theorem apply_mlm_masks_tokens (tokn_mat_orig mask_mat : tensor Z) (alph : alphabet)
    (g g' : PyRandom.rng) (tg tg' : generator Q) (N L : nat) (out : tensor Z) :
  shape tokn_mat_orig = [N; L] → shape mask_mat = [N; L] →
  well_formed tokn_mat_orig → well_formed mask_mat →
  apply_mlm_masks tokn_mat_orig mask_mat alph g tg = Ok (out, g', tg') →
  ∀ k x, data out !! k = Some x →
    x = mask_idx alph ∨
    (∃ tok, tok ∈ RESD_NAMES_1C ∧ x = get_idx alph tok) ∨
    data tokn_mat_orig !! k = Some x.
Proof.
  intros Hst Hsm Hwt Hwm Hcall k x Hx.
  destruct (apply_mlm_masks_run tokn_mat_orig mask_mat alph g tg N L)
    as (out' & Hcall' & Hso & Hlo & Hk); [done..|].
  rewrite Hcall in Hcall'. injection Hcall' as <- _ _.
  unfold well_formed in *. rewrite Hst in Hwt. rewrite Hsm in Hwm.
  assert (numel [N; L] = N * L) as Hnumel by (simpl; lia). rewrite Hnumel in Hwt, Hwm.
  apply lookup_lt_Some in Hx as Hlt.
  destruct (lookup_lt_is_Some_2 (data tokn_mat_orig) k) as [t Ht]; [lia|].
  destruct (lookup_lt_is_Some_2 (data mask_mat) k) as [m Hm]; [lia|].
  destruct (Hk k t m Ht Hm) as (tok & Htok & Hout).
  rewrite Hx in Hout. injection Hout as ->.
  destruct (_ && _); [by left|].
  destruct (_ && _); [|by right; right].
  right. left. exists tok. split; [|done]. by eapply list_elem_of_lookup_2.
Qed.

(** X13: the call draws one value per position from each generator: after
    a call on N x L matrices Python's generator and torch's generator have
    both moved on by N * L draws. *)
Theorem apply_mlm_masks_draws (tokn_mat_orig mask_mat : tensor Z) (alph : alphabet)
    (g g' : PyRandom.rng) (tg tg' : generator Q) (N L : nat) (out : tensor Z) :
  shape tokn_mat_orig = [N; L] → shape mask_mat = [N; L] →
  well_formed tokn_mat_orig → well_formed mask_mat →
  apply_mlm_masks tokn_mat_orig mask_mat alph g tg = Ok (out, g', tg') →
  g' = Generator (entropy g) (cursor g + N * L) ∧
  tg' = Generator (entropy tg) (cursor tg + N * L).
Proof.
  intros Hst Hsm Hwt Hwm Hcall.
  destruct (apply_mlm_masks_run tokn_mat_orig mask_mat alph g tg N L)
    as (out' & Hcall' & _); [done..|].
  rewrite Hcall in Hcall'. by injection Hcall' as _ -> ->.
Qed.

Lemma map2_Err {A B C} (f : A → B → C) (a : tensor A) (b : tensor B) e :
  Torch.map2 f a b = Err e → e = RuntimeError.
Proof. unfold Torch.map2. case_decide; [done|]. by intros [= <-]. Qed.

Lemma where_Err {A} (c : tensor bool) (a b : tensor A) e :
  Torch.where_ c a b = Err e → e = RuntimeError.
Proof.
  unfold Torch.where_. intros [H|(? & _ & H)]%bind_Err; by eapply map2_Err.
Qed.

(** X14: the call raises [ValueError] exactly when the token tensor is not
    a matrix, that is when its shape does not have two dimensions. *)
Theorem apply_mlm_masks_not_a_matrix (tokn_mat_orig mask_mat : tensor Z)
    (alph : alphabet) (g : PyRandom.rng) (tg : generator Q) :
  apply_mlm_masks tokn_mat_orig mask_mat alph g tg = Err ValueError
  ↔ length (shape tokn_mat_orig) ≠ 2.
Proof.
  unfold apply_mlm_masks.
  destruct (shape tokn_mat_orig) as [|N [|L [|? ?]]]; simpl; try (split; [lia|done]).
  split; [|done]. intros Herr. exfalso.
  destruct (choices_spec RESD_NAMES_1C (N * L) g) as (toks & g' & Hch & _); [done|].
  rewrite Hch in Herr. cbn [mbind result_bind] in Herr.
  destruct (Torch.rand [N; L] tg) as [prob_mat tg'].
  repeat (apply bind_Err in Herr as [Herr|(? & _ & Herr)];
          [first [apply map2_Err in Herr | apply where_Err in Herr
                 | unfold Torch.of_list_view in Herr; case_decide]; congruence|]).
  done.
Qed.

Lemma n_changed_le (m : list Z) : ∀ a b : list Z,
  length a = length m → length b = length m →
  (∀ k x y z, a !! k = Some x → b !! k = Some y → m !! k = Some z →
              x ≠ y → z ≠ 0%Z) →
  n_changed a b ≤ n_masked m.
Proof.
  unfold n_changed, n_masked.
  induction m as [|z m IH]; intros a b Ha Hb Hk.
  - destruct a; [|done]. simpl. lia.
  - destruct a as [|x a]; [done|]. destruct b as [|y b]; [done|].
    simpl in Ha, Hb.
    assert (length (filter (λ xy : Z * Z, xy.1 ≠ xy.2) (zip a b))
            ≤ length (filter (λ x : Z, x ≠ 0%Z) m)) as Hrest.
    { apply IH; [lia|lia|]. intros k. apply (Hk (S k)). }
    change (zip (x :: a) (y :: b)) with ((x, y) :: zip a b).
    rewrite !filter_cons. cbn [fst snd].
    destruct (decide (x ≠ y)) as [Hxy|Hxy].
    + rewrite decide_True by (by apply (Hk 0 x y z)). simpl. lia.
    + case_decide; simpl; lia.
Qed.

(** X15: the corruption changes at most as many tokens as positions are
    masked. *)
Theorem apply_mlm_masks_changes (tokn_mat_orig mask_mat : tensor Z) (alph : alphabet)
    (g g' : PyRandom.rng) (tg tg' : generator Q) (N L : nat) (out : tensor Z) :
  shape tokn_mat_orig = [N; L] → shape mask_mat = [N; L] →
  well_formed tokn_mat_orig → well_formed mask_mat →
  apply_mlm_masks tokn_mat_orig mask_mat alph g tg = Ok (out, g', tg') →
  n_changed (data out) (data tokn_mat_orig) ≤ n_masked (data mask_mat).
Proof.
  intros Hst Hsm Hwt Hwm Hcall.
  destruct (apply_mlm_masks_run tokn_mat_orig mask_mat alph g tg N L)
    as (out' & Hcall' & Hso & Hlo & Hk); [done..|].
  rewrite Hcall in Hcall'. injection Hcall' as <- _ _.
  unfold well_formed in *. rewrite Hst in Hwt. rewrite Hsm in Hwm.
  assert (numel [N; L] = N * L) as Hnumel by (simpl; lia). rewrite Hnumel in Hwt, Hwm.
  apply n_changed_le; [lia|lia|].
  intros k x t m Hx Ht Hm Hne ->.
  destruct (Hk k t 0%Z Ht Hm) as (tok & _ & Hout).
  rewrite bool_decide_false in Hout by (intros ?; done). simpl in Hout. congruence.
Qed.

(** ** Arrangements of per-residue items *)

Lemma view_rows_shape {A} (n l : nat) : ∀ xs : list A,
  length xs = n * l → has_shape n l (view_rows n l xs).
Proof.
  unfold has_shape. induction n as [|n IH]; intros xs Hlen; [done|].
  cbn [view_rows]. destruct (IH (drop l xs)) as [Hn Hrows].
  { rewrite length_drop. lia. }
  split; [simpl; by rewrite Hn|].
  constructor; [|done]. rewrite length_take. lia.
Qed.

Lemma view_rows_Forall {A} (P : A → Prop) (n l : nat) : ∀ xs : list A,
  Forall P xs → Forall (Forall P) (view_rows n l xs).
Proof.
  induction n as [|n IH]; intros xs Hxs; [constructor|].
  cbn [view_rows]. constructor; [by apply Forall_take|].
  apply IH. by apply Forall_drop.
Qed.

Lemma full_shape {A} (n l : nat) (x : A) : has_shape n l (full n l x).
Proof.
  unfold has_shape, full. split; [apply length_replicate|].
  apply Forall_replicate. apply length_replicate.
Qed.

Lemma where_resd_shape {A} (n l : nat) (rmsk : list (list bool)) (a b : list (list A)) :
  has_shape n l rmsk → has_shape n l a → has_shape n l b →
  has_shape n l (where_resd rmsk a b).
Proof.
  unfold has_shape, where_resd. intros [Hm Hmr] [Ha Har] [Hb Hbr]. split.
  - rewrite !length_zip_with. lia.
  - apply Forall_lookup. intros i row Hrow.
    apply lookup_zip_with_Some in Hrow as (rm & ab & -> & Hrm & Hab).
    apply lookup_zip_with_Some in Hab as (ra & rb & -> & Hra & Hrb). simpl.
    rewrite !length_zip_with.
    rewrite (Forall_lookup_1 _ _ _ _ Hmr Hrm), (Forall_lookup_1 _ _ _ _ Har Hra),
      (Forall_lookup_1 _ _ _ _ Hbr Hrb). lia.
Qed.

(** Two arrangements of the same size with the same items are equal. *)
Lemma nested_ext {A} (n l : nat) (a b : list (list A)) :
  has_shape n l a → has_shape n l b →
  (∀ i j, i < n → j < l → at2 a i j = at2 b i j) → a = b.
Proof.
  unfold has_shape, at2. intros [Ha Har] [Hb Hbr] Heq.
  apply list_eq_same_length with n; [done..|].
  intros i ra rb Hi Hra Hrb.
  apply list_eq_same_length with l;
    [apply (Forall_lookup_1 _ _ _ _ Hbr Hrb)|apply (Forall_lookup_1 _ _ _ _ Har Hra)|].
  intros j x y Hj Hx Hy. specialize (Heq i j Hi Hj).
  rewrite Hra, Hrb in Heq. simpl in Heq. congruence.
Qed.

Lemma all_dim2_length (n : nat) : ∀ flags, length (all_dim2 n flags) = n.
Proof. induction n as [|n IH]; intros flags; simpl; [done|]. by rewrite IH. Qed.

Lemma view_rows_length_eq {A} (n l : nat) (xs : list A) : length (view_rows n l xs) = n.
Proof.
  revert xs. induction n as [|n IH]; intros xs; simpl; [done|]. by rewrite IH.
Qed.

(** ** [init_qta_params]: errors, sizes and the fallback as a whole *)

Section QTAMore.
Context {F : Type} `{Scalar F}.
Variable cord2fram : @mat3 F → @mat3 F * @vec3 F.
Variable rota2quat : @mat3 F → @quat F.

Lemma view_frams_length (n : nat) : ∀ (xs : list F) frams,
  view_frams n xs = Ok frams → length frams = n.
Proof.
  induction n as [|n IH]; intros xs frams Hv.
  - destruct xs; [|done]. by injection Hv as <-.
  - destruct xs as [|a [|b [|c [|d [|e [|f [|g [|h [|i rest]]]]]]]]]; try done.
    cbn [view_frams] in Hv. apply bind_Ok in Hv as (fs & Hfs & [= <-]).
    simpl. f_equal. by eapply IH.
Qed.

Lemma group4_length (m : nat) : ∀ xs : list F,
  length xs = m * 4 → length (group4 xs) = m.
Proof.
  induction m as [|m IH]; intros xs Hlen.
  - by destruct xs.
  - destruct xs as [|a [|b [|c [|d rest]]]]; simpl in Hlen; try lia.
    simpl. f_equal. apply IH. lia.
Qed.

Lemma group3_spec (m : nat) : ∀ xs : list F,
  length xs = m * 3 →
  length (group3 xs) = m ∧
  ∀ k, k < m → ∃ a b c, xs !! (k * 3) = Some a ∧ xs !! (k * 3 + 1) = Some b ∧
                       xs !! (k * 3 + 2) = Some c ∧ group3 xs !! k = Some (a, b, c).
Proof.
  induction m as [|m IH]; intros xs Hlen.
  - destruct xs; [|done]. split; [done|lia].
  - destruct xs as [|a [|b [|c rest]]]; simpl in Hlen; try lia.
    destruct (IH rest) as [Hl Hk]; [lia|].
    split; [simpl; by rewrite Hl|].
    intros [|k] Hlt; [by exists a, b, c|].
    destruct (Hk k) as (a' & b' & c' & Ha & Hb & Hc & Hg); [lia|].
    exists a', b', c'. by split_and!.
Qed.

Lemma group2_length (m : nat) : ∀ xs : list F,
  length xs = m * 2 → length (group2 xs) = m.
Proof.
  induction m as [|m IH]; intros xs Hlen.
  - by destruct xs.
  - destruct xs as [|a [|b rest]]; simpl in Hlen; try lia.
    simpl. f_equal. apply IH. lia.
Qed.

(** The '3d-cord' branch once both shape tests have passed. *)
Lemma init_3d_cord_unfold (N L : nat) (cord : tensor F) (cmsk : tensor bool)
    (tg : generator F) :
  shape cord = [N; L; 3; 3] → shape cmsk = [N; L; 3] →
  init_qta_params cord2fram rota2quat N L "3d-cord" (Some cord) (Some cmsk) tg
  = frams ← view_frams (N * L) (data cord);
    let rmsk_tns := view_rows N L (all_dim2 (N * L) (data cmsk)) in
    Ok (where_resd rmsk_tns
          (view_rows N L (rota2quat <$> ((λ f, (cord2fram f).1) <$> frams)))
          (full N L quat_bh),
        where_resd rmsk_tns
          (view_rows N L ((λ f, (cord2fram f).2) <$> frams))
          (full N L trsl_bh),
        full N L (replicate N_ANGLS_PER_RESD angl_bh), tg).
Proof.
  intros Hsc Hsm. unfold init_qta_params.
  rewrite decide_False by done. rewrite decide_True by done.
  rewrite decide_True by done. rewrite decide_True by done.
  by destruct (view_frams (N * L) (data cord)).
Qed.

(** A returned '3d-cord' call went through both shape tests. *)
Lemma init_3d_cord_Ok (N L : nat) cord_tns cmsk_tns (tg : generator F) r :
  init_qta_params cord2fram rota2quat N L "3d-cord" cord_tns cmsk_tns tg = Ok r →
  ∃ cord cmsk, cord_tns = Some cord ∧ cmsk_tns = Some cmsk ∧
               shape cord = [N; L; 3; 3] ∧ shape cmsk = [N; L; 3].
Proof.
  unfold init_qta_params.
  rewrite decide_False by done. rewrite decide_True by done.
  destruct cord_tns as [cord|]; [|done]. case_decide; [|done].
  destruct cmsk_tns as [cmsk|]; [|done]. case_decide; [|done].
  intros _. by exists cord, cmsk.
Qed.

(** The quaternion and the translation of every residue of a returned
    '3d-cord' call. *)
Lemma init_3d_cord_at (N L : nat) (cord : tensor F) (cmsk : tensor bool)
    (tg : generator F) :
  shape cord = [N; L; 3; 3] → shape cmsk = [N; L; 3] →
  well_formed cord → well_formed cmsk →
  ∃ quat_tns trsl_tns,
    init_qta_params cord2fram rota2quat N L "3d-cord" (Some cord) (Some cmsk) tg
    = Ok (quat_tns, trsl_tns, full N L (replicate N_ANGLS_PER_RESD angl_bh), tg) ∧
    has_shape N L quat_tns ∧ has_shape N L trsl_tns ∧
    ∀ i j, i < N → j < L →
      ∃ fr a b c,
        frame_at (data cord) (i * L + j) = Some fr ∧
        flags_at (data cmsk) (i * L + j) = Some (a, b, c) ∧
        at2 quat_tns i j
        = Some (if a && b && c then rota2quat (cord2fram fr).1 else quat_bh) ∧
        at2 trsl_tns i j = Some (if a && b && c then (cord2fram fr).2 else trsl_bh).
Proof.
  intros Hsc Hsm Hwc Hwm. unfold well_formed in *. rewrite Hsc in Hwc. rewrite Hsm in Hwm.
  assert (length (data cord) = N * L * 9) as Hlc by (rewrite Hwc; simpl; lia).
  assert (length (data cmsk) = N * L * 3) as Hlm by (rewrite Hwm; simpl; lia).
  rewrite init_3d_cord_unfold by done.
  destruct (view_frams_spec (N * L) (data cord) Hlc) as (frams & -> & Hfl & Hfk).
  destruct (all_dim2_spec (N * L) (data cmsk) Hlm) as [Hal Hak].
  cbn [mbind result_bind]. eexists _, _. split; [reflexivity|].
  assert (has_shape N L (view_rows N L (all_dim2 (N * L) (data cmsk)))) as Hrm
    by (by apply view_rows_shape).
  split_and!.
  - apply where_resd_shape; [done| |apply full_shape].
    apply view_rows_shape. by rewrite !length_fmap.
  - apply where_resd_shape; [done| |apply full_shape].
    apply view_rows_shape. by rewrite !length_fmap.
  - intros i j Hi Hj. set (k := i * L + j).
    assert (k < N * L) as Hk by (unfold k; nia).
    destruct (lookup_lt_is_Some_2 frams k) as [fr Hfr]; [lia|].
    destruct (Hak k Hk) as (a & b & c & Hflags & Hall).
    exists fr, a, b, c. split_and!.
    + by rewrite Hfk.
    + done.
    + eapply where_resd_at2.
      * rewrite view_rows_at2 by done. exact Hall.
      * rewrite view_rows_at2 by done. rewrite !list_lookup_fmap. fold k.
        rewrite Hfr. reflexivity.
      * by apply full_at2.
    + eapply where_resd_at2.
      * rewrite view_rows_at2 by done. exact Hall.
      * rewrite view_rows_at2 by done. rewrite !list_lookup_fmap. fold k.
        rewrite Hfr. reflexivity.
      * by apply full_at2.
Qed.

(** X16: the call raises [ValueError] exactly for a mode that is none of
    'black-hole', '3d-cord' and 'random'. *)
Theorem init_qta_params_mode_error (N L : nat) (mode : string)
    (cord_tns : option (tensor F)) (cmsk_tns : option (tensor bool))
    (tg : generator F) :
  init_qta_params cord2fram rota2quat N L mode cord_tns cmsk_tns tg = Err ValueError
  ↔ mode ≠ "black-hole"%string ∧ mode ≠ "3d-cord"%string ∧ mode ≠ "random"%string.
Proof.
  unfold init_qta_params.
  case_decide as Hbh; [split; [done|by intros [? _]]|].
  case_decide as H3d.
  { split; [|by intros (_ & ? & _)]. intros Herr. exfalso.
    destruct cord_tns as [cord|]; [|done]. case_decide; [|done].
    destruct cmsk_tns as [cmsk|]; [|done]. case_decide; [|done].
    destruct (view_frams (N * L) (data cord)) as [frams|e] eqn:Hv; simpl in Herr.
    - by destruct (cord2fram_batch cord2fram frams).
    - apply view_frams_Err in Hv. congruence. }
  case_decide as Hrd; [|done].
  split; [|by intros (_ & _ & ?)]. intros Herr. exfalso.
  destruct (draws (N * L * 4) tg) as [qs tg1].
  destruct (draws (N * L * 3) tg1) as [ts tg2].
  by destruct (draws (N * L * N_ANGLS_PER_RESD * 2) tg2).
Qed.

(** X17: in '3d-cord' mode the call raises [AssertionError] exactly when
    the coordinates are supplied and either they have another shape than
    N x L x 3 x 3, or the masks are supplied with another shape than
    N x L x 3. *)
Theorem init_qta_params_shape_error (N L : nat)
    (cord_tns : option (tensor F)) (cmsk_tns : option (tensor bool))
    (tg : generator F) :
  init_qta_params cord2fram rota2quat N L "3d-cord" cord_tns cmsk_tns tg
  = Err AssertionError
  ↔ ∃ cord, cord_tns = Some cord ∧
      (shape cord ≠ [N; L; 3; 3] ∨
       ∃ cmsk, cmsk_tns = Some cmsk ∧ shape cmsk ≠ [N; L; 3]).
Proof.
  unfold init_qta_params.
  rewrite decide_False by done. rewrite decide_True by done.
  destruct cord_tns as [cord|]; [|split; [done|by intros (? & ? & _)]].
  case_decide as Hc; [|split; [eauto|done]].
  destruct cmsk_tns as [cmsk|].
  2:{ split; [done|]. intros (c & [= <-] & [?|(? & ? & _)]); done. }
  case_decide as Hm.
  2:{ split; [|done]. intros _. exists cord. split; [done|]. right. eauto. }
  split.
  - intros Herr. exfalso.
    destruct (view_frams (N * L) (data cord)) as [frams|e] eqn:Hv; simpl in Herr.
    + by destruct (cord2fram_batch cord2fram frams).
    + apply view_frams_Err in Hv. congruence.
  - intros (c & [= <-] & [?|(m & [= <-] & ?)]); done.
Qed.

(** X18: whatever the mode, a returned call gives N x L quaternions, N x L
    translations and N x L lists of K = 7 angle pairs. *)
Theorem init_qta_params_shapes (N L : nat) (mode : string)
    (cord_tns : option (tensor F)) (cmsk_tns : option (tensor bool))
    (tg tg' : generator F) quat_tns trsl_tns angl_tns :
  init_qta_params cord2fram rota2quat N L mode cord_tns cmsk_tns tg
  = Ok (quat_tns, trsl_tns, angl_tns, tg') →
  has_shape N L quat_tns ∧ has_shape N L trsl_tns ∧ has_shape N L angl_tns ∧
  Forall (Forall (λ angls, length angls = N_ANGLS_PER_RESD)) angl_tns.
Proof.
  assert (Forall (Forall (λ angls : list (@angl F), length angls = N_ANGLS_PER_RESD))
            (full N L (replicate N_ANGLS_PER_RESD angl_bh))) as Hbh.
  { apply Forall_replicate, Forall_replicate, length_replicate. }
  destruct (decide (mode = "black-hole"%string)) as [->|Hbh'].
  { intros [= <- <- <- _]. split_and!; try apply full_shape. done. }
  destruct (decide (mode = "3d-cord"%string)) as [->|H3d].
  { intros Hcall.
    destruct (init_3d_cord_Ok _ _ _ _ _ _ Hcall) as (cord & cmsk & -> & -> & Hsc & Hsm).
    rewrite init_3d_cord_unfold in Hcall by done.
    apply bind_Ok in Hcall as (frams & Hv & [= <- <- <- _]).
    apply view_frams_length in Hv.
    assert (has_shape N L (view_rows N L (all_dim2 (N * L) (data cmsk)))) as Hrm
      by (apply view_rows_shape, all_dim2_length).
    split_and!; [| |apply full_shape|done].
    - apply where_resd_shape; [done| |apply full_shape].
      apply view_rows_shape. by rewrite !length_fmap.
    - apply where_resd_shape; [done| |apply full_shape].
      apply view_rows_shape. by rewrite !length_fmap. }
  unfold init_qta_params. rewrite !decide_False by done.
  case_decide; [|done].
  destruct (draws_spec (N * L * 4) tg) as (Hq & _ & _).
  destruct (draws (N * L * 4) tg) as [qs tg1].
  destruct (draws_spec (N * L * 3) tg1) as (Ht & _ & _).
  destruct (draws (N * L * 3) tg1) as [ts tg2].
  destruct (draws_spec (N * L * N_ANGLS_PER_RESD * 2) tg2) as (Ha & _ & _).
  destruct (draws (N * L * N_ANGLS_PER_RESD * 2) tg2) as [aa tg3].
  cbn [fst] in Hq, Ht, Ha. intros [= <- <- <- _].
  assert (length (angl_unit <$> group2 aa) = N * L * N_ANGLS_PER_RESD) as Hla.
  { rewrite length_fmap. by apply group2_length. }
  split_and!.
  - apply view_rows_shape. rewrite !length_fmap. by apply group4_length.
  - apply view_rows_shape. by apply group3_spec.
  - apply view_rows_shape. apply view_rows_length_eq.
  - apply view_rows_Forall. by apply view_rows_shape.
Qed.

(** X19: the '3d-cord' mode derives no angles and draws no random numbers:
    a returned call gives the angle pairs (1,0) of the 'black-hole' mode
    for every residue, valid or not, and the generator as it was. *)
Theorem init_qta_params_3d_cord_angles (N L : nat)
    (cord_tns : option (tensor F)) (cmsk_tns : option (tensor bool))
    (tg tg' : generator F) quat_tns trsl_tns angl_tns :
  init_qta_params cord2fram rota2quat N L "3d-cord" cord_tns cmsk_tns tg
  = Ok (quat_tns, trsl_tns, angl_tns, tg') →
  angl_tns = replicate N (replicate L (replicate 7 (s_one, s_zero))) ∧ tg' = tg.
Proof.
  intros Hcall.
  destruct (init_3d_cord_Ok _ _ _ _ _ _ Hcall) as (cord & cmsk & -> & -> & Hsc & Hsm).
  rewrite init_3d_cord_unfold in Hcall by done.
  by apply bind_Ok in Hcall as (frams & Hv & [= _ _ <- <-]).
Qed.

(** X20: when every residue has an invalid atom the '3d-cord' mode returns
    what the 'black-hole' mode returns, whatever the coordinates are. *)
Theorem init_qta_params_all_invalid (N L : nat) (cord : tensor F)
    (cmsk : tensor bool) (tg : generator F) :
  shape cord = [N; L; 3; 3] → shape cmsk = [N; L; 3] →
  well_formed cord → well_formed cmsk →
  (∀ k a b c, flags_at (data cmsk) k = Some (a, b, c) → a && b && c = false) →
  init_qta_params cord2fram rota2quat N L "3d-cord" (Some cord) (Some cmsk) tg
  = init_qta_params cord2fram rota2quat N L "black-hole" None None tg.
Proof.
  intros Hsc Hsm Hwc Hwm Hinv.
  destruct (init_3d_cord_at N L cord cmsk tg Hsc Hsm Hwc Hwm)
    as (q & t & -> & Hq & Ht & Hat).
  change (init_qta_params cord2fram rota2quat N L "black-hole" None None tg)
    with (Ok (init_black_hole N L, tg)).
  assert (q = full N L quat_bh) as ->.
  { apply (nested_ext N L); [done|apply full_shape|].
    intros i j Hi Hj. destruct (Hat i j Hi Hj) as (fr & a & b & c & _ & Hf & -> & _).
    rewrite (Hinv _ _ _ _ Hf). by rewrite full_at2. }
  assert (t = full N L trsl_bh) as ->; [|done].
  apply (nested_ext N L); [done|apply full_shape|].
  intros i j Hi Hj. destruct (Hat i j Hi Hj) as (fr & a & b & c & _ & Hf & _ & ->).
  rewrite (Hinv _ _ _ _ Hf). by rewrite full_at2.
Qed.

(** X21: the coordinates of a residue with an invalid atom have no
    influence: two coordinate tensors that agree on the residues whose
    three atoms are valid give the same result. *)
Theorem init_qta_params_invalid_coordinates (N L : nat) (cord cord' : tensor F)
    (cmsk : tensor bool) (tg : generator F) :
  shape cord = [N; L; 3; 3] → shape cord' = [N; L; 3; 3] → shape cmsk = [N; L; 3] →
  well_formed cord → well_formed cord' → well_formed cmsk →
  (∀ k, flags_at (data cmsk) k = Some (true, true, true) →
        frame_at (data cord) k = frame_at (data cord') k) →
  init_qta_params cord2fram rota2quat N L "3d-cord" (Some cord) (Some cmsk) tg
  = init_qta_params cord2fram rota2quat N L "3d-cord" (Some cord') (Some cmsk) tg.
Proof.
  intros Hsc Hsc' Hsm Hwc Hwc' Hwm Hagree.
  destruct (init_3d_cord_at N L cord cmsk tg Hsc Hsm Hwc Hwm)
    as (q & t & -> & Hq & Ht & Hat).
  destruct (init_3d_cord_at N L cord' cmsk tg Hsc' Hsm Hwc' Hwm)
    as (q' & t' & -> & Hq' & Ht' & Hat').
  assert (∀ i j, i < N → j < L → at2 q i j = at2 q' i j ∧ at2 t i j = at2 t' i j)
    as Hsame.
  { intros i j Hi Hj.
    destruct (Hat i j Hi Hj) as (fr & a & b & c & Hfr & Hf & -> & ->).
    destruct (Hat' i j Hi Hj) as (fr' & a' & b' & c' & Hfr' & Hf' & -> & ->).
    rewrite Hf in Hf'. injection Hf' as <- <- <-.
    destruct a, b, c; try done.
    rewrite (Hagree _ Hf), Hfr' in Hfr. by injection Hfr as ->. }
  assert (q = q') as ->.
  { apply (nested_ext N L); [done..|]. intros i j Hi Hj. by apply Hsame. }
  assert (t = t') as ->; [|done].
  apply (nested_ext N L); [done..|]. intros i j Hi Hj. by apply Hsame.
Qed.

(** X22: the 'random' mode always returns, ignores the optional tensors and
    draws 4 + 3 + 2 * 7 = 21 numbers per residue: the generator has moved
    on by 21 * N * L draws. *)
Theorem init_qta_params_random_draws (N L : nat) (tg : generator F) :
  ∃ out : qta, ∀ cord_tns cmsk_tns,
    init_qta_params cord2fram rota2quat N L "random" cord_tns cmsk_tns tg
    = Ok (out, Generator (entropy tg) (cursor tg + 21 * (N * L))).
Proof.
  destruct (draws_spec (N * L * 4) tg) as (_ & Hg1 & _).
  destruct (draws (N * L * 4) tg) as [qs tg1] eqn:E1. cbn [snd] in Hg1. subst tg1.
  destruct (draws_spec (N * L * 3) (Generator (entropy tg) (cursor tg + N * L * 4)))
    as (_ & Hg2 & _).
  destruct (draws (N * L * 3) _) as [ts tg2] eqn:E2.
  cbn [snd entropy cursor] in Hg2. subst tg2.
  destruct (draws_spec (N * L * N_ANGLS_PER_RESD * 2)
              (Generator (entropy tg) (cursor tg + N * L * 4 + N * L * 3)))
    as (_ & Hg3 & _).
  destruct (draws (N * L * N_ANGLS_PER_RESD * 2) _) as [aa tg3] eqn:E3.
  cbn [snd entropy cursor] in Hg3. subst tg3.
  eexists. intros cord_tns cmsk_tns. unfold init_qta_params.
  rewrite decide_False by done. rewrite decide_False by done.
  rewrite decide_True by done. rewrite E1, E2, E3.
  do 3 f_equal. unfold N_ANGLS_PER_RESD. lia.
Qed.

(** X23: in 'random' mode the translations are raw draws, not normalised:
    they come after the 4 * N * L draws of the quaternions, and the
    translation of the [k]-th residue holds the draws 3k, 3k+1 and 3k+2
    among them. *)
Theorem init_qta_params_random_translation (N L : nat)
    (cord_tns : option (tensor F)) (cmsk_tns : option (tensor bool))
    (tg : generator F) :
  ∃ quat_tns trsl_tns angl_tns tg',
    init_qta_params cord2fram rota2quat N L "random" cord_tns cmsk_tns tg
    = Ok (quat_tns, trsl_tns, angl_tns, tg') ∧
    ∀ i j, i < N → j < L →
      at2 trsl_tns i j
      = Some (peek tg (4 * (N * L) + 3 * (i * L + j)),
              peek tg (4 * (N * L) + 3 * (i * L + j) + 1),
              peek tg (4 * (N * L) + 3 * (i * L + j) + 2)).
Proof.
  unfold init_qta_params.
  rewrite decide_False by done. rewrite decide_False by done.
  rewrite decide_True by done.
  destruct (draws_spec (N * L * 4) tg) as (_ & Hg1 & _).
  destruct (draws (N * L * 4) tg) as [qs tg1]. cbn [snd] in Hg1. subst tg1.
  destruct (draws_spec (N * L * 3) (Generator (entropy tg) (cursor tg + N * L * 4)))
    as (Hlt & _ & Hts).
  destruct (draws (N * L * 3) _) as [ts tg2]. cbn [fst] in Hlt, Hts.
  destruct (draws _ tg2) as [aa tg3].
  eexists _, _, _, _. split; [reflexivity|].
  intros i j Hi Hj. set (k := i * L + j).
  assert (k < N * L) as Hk by (unfold k; nia).
  rewrite view_rows_at2 by done. fold k. clearbody k.
  destruct (group3_spec (N * L) ts Hlt) as [_ Hg].
  destruct (Hg k Hk) as (a & b & c & Ha & Hb & Hc & Hgk).
  etransitivity; [exact Hgk|].
  rewrite Hts in Ha, Hb, Hc by lia. unfold peek in *. cbn [entropy cursor] in *.
  injection Ha as <-. injection Hb as <-. injection Hc as <-.
  f_equal. f_equal; [f_equal|]; apply (f_equal (entropy tg)); lia.
Qed.

End QTAMore.

(** ** The further properties at concrete inputs *)

Lemma get_mlm_masks_shape_witness :
  length [0; 1; 0; 1; 1]%Z = sum_list (String.length <$> ["AC"; "AC"; "G"]%string) ∧
  Forall (λ x, x = 0%Z ∨ x = 1%Z) [0; 1; 0; 1; 1]%Z.
Proof.
  apply (get_mlm_masks_shape ["AC"; "AC"; "G"] (1 # 2) None example_rng
           (Generator (entropy example_rng) 2)).
  vm_compute. reflexivity.
Defined.

Lemma get_mlm_masks_only_eligible_witness :
  eligible "AC" (index_of "AC" ["AC"; "AC"; "G"]%string)
           (Some [[1; 0]; [0; 0]; [1]]%Z) 0.
Proof.
  apply (get_mlm_masks_only_eligible ["AC"; "AC"; "G"] (1 # 2)
           (Some [[1; 0]; [0; 0]; [1]]%Z) example_rng
           (Generator (entropy example_rng) 2) [1; 0; 1; 0; 1]%Z) with (i := 1).
  - vm_compute. reflexivity.
  - reflexivity.
  - reflexivity.
Defined.

Lemma get_mlm_masks_prob_one_witness :
  segment [0; 1; 1]%Z ["AC"; "G"]%string 0 "AC" !! 1 = Some 1%Z ↔
  eligible "AC" (index_of "AC" ["AC"; "G"]%string) (Some [[0; 1]; [1]]%Z) 1.
Proof.
  apply (get_mlm_masks_prob_one ["AC"; "G"] 1 (Some [[0; 1]; [1]]%Z) example_rng
           (Generator (entropy example_rng) 2) [0; 1; 1]%Z).
  - reflexivity.
  - vm_compute. reflexivity.
  - reflexivity.
Defined.

Lemma get_mlm_masks_no_candidates_witness :
  n_resds_mask_of 0 (7 # 1) = 0%Z ∧
  segment [0; 0; 0; 0]%Z ["AC"; "AC"]%string 1 "AC" = replicate (String.length "AC") 0%Z.
Proof.
  apply (get_mlm_masks_no_candidates ["AC"; "AC"] (7 # 1) (Some [[0; 0]; [1; 1]]%Z)
           example_rng example_rng [0; 0; 0; 0]%Z 1 "AC").
  - vm_compute. reflexivity.
  - reflexivity.
  - intros j (v & x & Hv & Hx & Hne). vm_compute in Hv. injection Hv as <-.
    destruct j as [|[|j]]; simpl in Hx; try discriminate;
      injection Hx as <-; by apply Hne.
Defined.


Lemma get_mlm_masks_all_allowed_witness :
  get_mlm_masks ["AC"; "AC"; "G"] (1 # 2) (Some [[1; 2]; [3; 4]; [5]]%Z) example_rng
  = get_mlm_masks ["AC"; "AC"; "G"] (1 # 2) None example_rng.
Proof.
  apply get_mlm_masks_all_allowed.
  repeat first [constructor | split | reflexivity | discriminate].
Defined.

Lemma get_mlm_masks_append_duplicate_witness :
  get_mlm_masks (["AC"; "G"] ++ ["AC"]) (1 # 2) None example_rng
  = Ok ([0; 1; 1]%Z ++ segment [0; 1; 1]%Z ["AC"; "G"]%string
                         (index_of "AC" ["AC"; "G"]%string) "AC",
        Generator (entropy example_rng) 2).
Proof.
  apply get_mlm_masks_append_duplicate.
  - constructor.
  - vm_compute. reflexivity.
Defined.

Lemma get_mlm_masks_prefix_witness :
  ∃ tail, [0; 1; 1; 0; 1]%Z = [0; 1]%Z ++ tail ∧
          length tail = sum_list (String.length <$> ["G"; "AC"]%string).
Proof.
  apply (get_mlm_masks_prefix ["AC"] ["G"; "AC"] (1 # 2) None example_rng
           (Generator (entropy example_rng) 1) (Generator (entropy example_rng) 2)).
  - vm_compute. reflexivity.
  - vm_compute. reflexivity.
Defined.

Lemma apply_mlm_masks_zero_mask_witness :
  ∃ g' tg',
    apply_mlm_masks (Tensor [2; 2] [5; 6; 7; 9]%Z) (Tensor [2; 2] [0; 0; 0; 0]%Z)
                    example_alphabet example_rng example_uniform
    = Ok (Tensor [2; 2] [5; 6; 7; 9]%Z, g', tg').
Proof.
  apply (apply_mlm_masks_zero_mask _ _ _ _ _ 2 2);
    first [reflexivity | repeat constructor].
Defined.

Lemma apply_mlm_masks_tokens_witness :
  8%Z = mask_idx example_alphabet ∨
  (∃ tok, tok ∈ RESD_NAMES_1C ∧ 8%Z = get_idx example_alphabet tok) ∨
  data (Tensor [2; 2] [5; 6; 7; 9]%Z) !! 3 = Some 8%Z.
Proof.
  apply (apply_mlm_masks_tokens (Tensor [2; 2] [5; 6; 7; 9]%Z)
           (Tensor [2; 2] [1; 1; 0; 1]%Z) example_alphabet
           example_rng (Generator (entropy example_rng) 4)
           example_uniform (Generator (entropy example_uniform) 4)
           2 2 (Tensor [2; 2] [5; 32; 7; 8]%Z)); reflexivity.
Defined.

Lemma apply_mlm_masks_draws_witness :
  Generator (entropy example_rng) 4
  = Generator (entropy example_rng) (cursor example_rng + 2 * 2) ∧
  Generator (entropy example_uniform) 4
  = Generator (entropy example_uniform) (cursor example_uniform + 2 * 2).
Proof.
  apply (apply_mlm_masks_draws (Tensor [2; 2] [5; 6; 7; 9]%Z)
           (Tensor [2; 2] [1; 1; 0; 1]%Z) example_alphabet
           example_rng (Generator (entropy example_rng) 4)
           example_uniform (Generator (entropy example_uniform) 4)
           2 2 (Tensor [2; 2] [5; 32; 7; 8]%Z)); reflexivity.
Defined.

Lemma apply_mlm_masks_changes_witness :
  n_changed [5; 32; 7; 8]%Z [5; 6; 7; 9]%Z ≤ n_masked [1; 1; 0; 1]%Z.
Proof.
  apply (apply_mlm_masks_changes (Tensor [2; 2] [5; 6; 7; 9]%Z)
           (Tensor [2; 2] [1; 1; 0; 1]%Z) example_alphabet
           example_rng (Generator (entropy example_rng) 4)
           example_uniform (Generator (entropy example_uniform) 4)
           2 2 (Tensor [2; 2] [5; 32; 7; 8]%Z)); reflexivity.
Defined.

Lemma init_qta_params_shapes_witness :
  let f := float_of_nat in
  let quat_tns := [[(f 1, f 2, f 3, f 4);
                    (PrimFloat.one, PrimFloat.zero, PrimFloat.zero, PrimFloat.zero)]] in
  let trsl_tns := [[(f 4, f 5, f 6);
                    (PrimFloat.zero, PrimFloat.zero, PrimFloat.zero)]] in
  let angl_tns := [[replicate 7 (PrimFloat.one, PrimFloat.zero);
                    replicate 7 (PrimFloat.one, PrimFloat.zero)]] in
  has_shape 1 2 quat_tns ∧ has_shape 1 2 trsl_tns ∧ has_shape 1 2 angl_tns ∧
  Forall (Forall (λ angls, length angls = N_ANGLS_PER_RESD)) angl_tns.
Proof.
  apply (init_qta_params_shapes example_cord2fram example_rota2quat 1 2 "3d-cord"
           (Some example_cord) (Some example_cmsk) example_normal example_normal).
  vm_compute. reflexivity.
Defined.

Lemma init_qta_params_3d_cord_angles_witness :
  [[replicate 7 (PrimFloat.one, PrimFloat.zero);
    replicate 7 (PrimFloat.one, PrimFloat.zero)]]
  = replicate 1 (replicate 2 (replicate 7 (s_one, s_zero))) ∧
  example_normal = example_normal.
Proof.
  apply (init_qta_params_3d_cord_angles example_cord2fram example_rota2quat 1 2
           (Some example_cord) (Some example_cmsk) example_normal example_normal
           [[(float_of_nat 1, float_of_nat 2, float_of_nat 3, float_of_nat 4);
             (PrimFloat.one, PrimFloat.zero, PrimFloat.zero, PrimFloat.zero)]]
           [[(float_of_nat 4, float_of_nat 5, float_of_nat 6);
             (PrimFloat.zero, PrimFloat.zero, PrimFloat.zero)]]).
  vm_compute. reflexivity.
Defined.

Lemma init_qta_params_all_invalid_witness :
  init_qta_params example_cord2fram example_rota2quat 1 2 "3d-cord"
                  (Some example_cord) (Some example_cmsk_invalid) example_normal
  = init_qta_params example_cord2fram example_rota2quat 1 2 "black-hole"
                    None None example_normal.
Proof.
  apply init_qta_params_all_invalid; try reflexivity.
  intros [|[|k]] a b c Hf.
  - by injection Hf as <- <- <-.
  - by injection Hf as <- <- <-.
  - unfold flags_at in Hf. simpl in Hf. rewrite drop_nil in Hf. discriminate.
Defined.

Lemma init_qta_params_invalid_coordinates_witness :
  init_qta_params example_cord2fram example_rota2quat 1 2 "3d-cord"
                  (Some example_cord) (Some example_cmsk) example_normal
  = init_qta_params example_cord2fram example_rota2quat 1 2 "3d-cord"
                    (Some example_cord_other) (Some example_cmsk) example_normal.
Proof.
  apply init_qta_params_invalid_coordinates; try reflexivity.
  intros [|[|k]] Hf.
  - vm_compute. reflexivity.
  - discriminate Hf.
  - unfold flags_at in Hf. simpl in Hf. rewrite drop_nil in Hf. discriminate.
Defined.

Lemma init_qta_params_random_translation_witness :
  ∃ quat_tns trsl_tns angl_tns tg',
    init_qta_params example_cord2fram example_rota2quat 1 1 "random" None None
                    example_normal
    = Ok (quat_tns, trsl_tns, angl_tns, tg') ∧
    ∀ i j, i < 1 → j < 1 →
      at2 trsl_tns i j
      = Some (peek example_normal (4 * (1 * 1) + 3 * (i * 1 + j)),
              peek example_normal (4 * (1 * 1) + 3 * (i * 1 + j) + 1),
              peek example_normal (4 * (1 * 1) + 3 * (i * 1 + j) + 2)).
Proof.
  apply init_qta_params_random_translation.
Defined.
